(** * NeuroDraw: the robust-prediction pipeline

    A shallow embedding of the numeric core of the NeuroDraw application:
    - [App.getImageData]           (js/main.js): the 28x28 block-average
      downsampling of the drawing canvas;
    - [NeuralNetwork.predict], [NeuralNetwork.verify] and
      [NeuralNetwork.augmentInput] (the Brain.js variant of the model
      object): single-shot prediction, test-time augmentation and voting.

    Number model.  JavaScript numbers are modelled as exact rationals
    extended with [NaN]; the rounding of IEEE doubles and of [Float32Array]
    cells is not modelled.  [undefined], which is what an array read past
    the end produces, is the [None] of a list lookup; it behaves as [NaN]
    in every numeric context the code puts it in. *)

From Stdlib Require Import ZArith NArith QArith Qround Qabs Lia Lqa.
From Stdlib.Strings Require Import Byte.
From stdpp Require Import base option list strings.

(** ** JavaScript numbers and array cells *)
Module JS.

Inductive num : Type :=
| Fin (q : Q)
| NaN.

(** [v > m] where [v] was read from an array ([None] is [undefined]) and
    [m] is a finite running maximum.  Any comparison with [NaN] or
    [undefined] is false. *)
Definition gt (v : option num) (m : Q) : bool :=
  match v with
  | Some (Fin q) => match (q ?= m)%Q with Gt => true | _ => false end
  | Some NaN | None => false
  end.

(** The numeric value of an array read that [gt] accepted. *)
Definition val (v : option num) (m : Q) : Q :=
  match v with
  | Some (Fin q) => q
  | _ => m
  end.

(** Storing the result of an array read in a [Float32Array] cell:
    [undefined] is converted to [NaN]. *)
Definition to_cell (v : option num) : num :=
  match v with
  | Some n => n
  | None => NaN
  end.

Definition add (a b : num) : num :=
  match a, b with
  | Fin x, Fin y => Fin (x + y)
  | _, _ => NaN
  end.

(** [a / b].  [0 / 0] is [NaN].  A non-zero number divided by zero is an
    infinity in JavaScript; infinities are outside this number model and
    are folded into [NaN] (they are not finite numbers either). *)
Definition div (a b : num) : num :=
  match a, b with
  | Fin x, Fin y => if Qeq_bool y 0 then NaN else Fin (x / y)
  | _, _ => NaN
  end.

(** [Math.min(1, v)] and [Math.max(0, v)]; both propagate [NaN]. *)
Definition min1 (v : num) : num :=
  match v with
  | Fin q => Fin (if Qle_bool 1 q then 1 else q)
  | NaN => NaN
  end.

Definition max0 (v : num) : num :=
  match v with
  | Fin q => Fin (if Qle_bool q 0 then 0 else q)
  | NaN => NaN
  end.

(** A finite number within [lo, hi]. *)
Definition within (lo hi : Q) (v : num) : Prop :=
  match v with
  | Fin q => (lo <= q <= hi)%Q
  | NaN => False
  end.

End JS.

Import JS.

(** ** The application object: downsampling the canvas *)
Module App.

(** The object's fields [gridSize: 28] and [canvasSize: 280]. *)
Definition gridSize : nat := 28.
Definition canvasSize : nat := 280.

(** [data[idx]] on the canvas buffer, a [Uint8ClampedArray]: a byte as
    a number, [undefined] (as [NaN]) outside the buffer. *)
Definition data_at (data : list Byte.byte) (idx : Z) : num :=
  if (idx <? 0)%Z then NaN
  else match data !! Z.to_nat idx with
       | Some b => Fin (inject_Z (Z.of_N (Byte.to_N b)))
       | None => NaN
       end.

(** [Math.floor(k * cellSize)] *)
Definition cell_edge (cellSize : Q) (k : nat) : Z :=
  Qfloor (inject_Z (Z.of_nat k) * cellSize).

(** The running [sum] and [count] of one cell. *)
Record acc : Type := mkAcc {
  sum : num;
  count : nat
}.

(** [const idx = (py * this.canvasSize + px) * 4;
     sum += data[idx]; count++;] *)
Definition pixel_step (cs : nat) (data : list Byte.byte) (py : Z)
    (a : acc) (px : Z) : acc :=
  let idx := ((py * Z.of_nat cs + px) * 4)%Z in
  mkAcc (add (sum a) (data_at data idx)) (S (count a)).

(** The two pixel loops of one cell. *)
Definition cell_acc (cs : nat) (data : list Byte.byte)
    (startX endX startY endY : Z) : acc :=
  foldl (λ a py,
           foldl (pixel_step cs data py) a (seqZ startX (endX - startX)))
        (mkAcc (Fin 0) 0)
        (seqZ startY (endY - startY)).

(** The body of the loop over [x]: average the cell and store it. *)
Definition cell_step (gs cs : nat) (data : list Byte.byte) (cellSize : Q)
    (y : nat) (result : list num) (x : nat) : list num :=
  let startX := cell_edge cellSize x in
  let startY := cell_edge cellSize y in
  let endX := cell_edge cellSize (x + 1) in
  let endY := cell_edge cellSize (y + 1) in
  let a := cell_acc cs data startX endX startY endY in
  <[ y * gs + x :=
       div (div (sum a) (Fin (inject_Z (Z.of_nat (count a)))))
           (Fin 255) ]> result.

(** [getImageData], for an object whose fields [gridSize] and
    [canvasSize] are [gs] and [cs]; [data] is what the drawing context
    hands back for the [cs] x [cs] canvas. *)
Definition getImageData_with (gs cs : nat) (data : list Byte.byte)
    : list num :=
  let cellSize := (inject_Z (Z.of_nat cs) / inject_Z (Z.of_nat gs))%Q in
  foldl (λ result y,
           foldl (cell_step gs cs data cellSize y) result (seq 0 gs))
        (replicate (gs * gs) (Fin 0))
        (seq 0 gs).

Definition getImageData (data : list Byte.byte) : list num :=
  getImageData_with gridSize canvasSize data.

End App.

(** ** The model object *)
Module NeuralNetwork.

(** The external classifier [window.nn].  Its answer may depend on the
    calls made before (the list of earlier arguments), so that stateful
    classifiers are covered. *)
Definition Classifier : Type := list (list num) → list num → list num.

Record Activations : Type := mkActivations {
  act_input : list num;
  act_hidden : list num;
  act_output : list num
}.

(** The state the model object's methods run in: the object's own fields,
    the global [window.nn], and the two pieces of the environment that
    the methods use up: the stream behind [Math.random] and the record of
    the calls made to the classifier. *)
Record State : Type := mkState {
  isLoaded : bool;
  activations : Activations;
  window_nn : option Classifier;
  random : nat → Q;
  drawn : nat;
  calls : list (list num)
}.

(** State-passing computations. *)
Definition M (A : Type) : Type := State → A * State.

#[global] Instance M_ret : MRet M := λ A a s, (a, s).

#[global] Instance M_bind : MBind M :=
  λ A B k m s, let '(a, s') := m s in k a s'.

Definition get : M State := λ s, (s, s).

(** [Math.random()] *)
Definition Math_random : M Q :=
  λ s, (random s (drawn s),
        mkState (isLoaded s) (activations s) (window_nn s)
                (random s) (S (drawn s)) (calls s)).

(** [window.nn(Array.from(data))] *)
Definition call_nn (nn : Classifier) (data : list num) : M (list num) :=
  λ s, (nn (calls s) data,
        mkState (isLoaded s) (activations s) (window_nn s)
                (random s) (drawn s) (calls s ++ [data])).

Definition set_activations (f : Activations → Activations) : M unit :=
  λ s, (tt,
        mkState (isLoaded s) (f (activations s)) (window_nn s)
                (random s) (drawn s) (calls s)).

(** A loop with a body in [M] over the elements of a list. *)
Fixpoint foldM {A B} (body : A → B → M A) (acc : A) (l : list B) : M A :=
  match l with
  | [] => mret acc
  | b :: l' => acc' ← body acc b; foldM body acc' l'
  end.

(** *** The argmax loop

    [let maxProb = 0; let prediction = 0;
     for (let i = 0; i < bound; i++)
       if (output[i] > maxProb) { maxProb = output[i]; prediction = i; }]

    [reads] is a ghost field: the indices at which [output] was
    subscripted, in order. *)
Record scan : Type := mkScan {
  maxProb : Q;
  prediction : nat;
  reads : list nat
}.

Definition scan_step (output : list num) (s : scan) (i : nat) : scan :=
  let v := output !! i in
  if gt v (maxProb s)
  then mkScan (val v (maxProb s)) i (reads s ++ [i])
  else mkScan (maxProb s) (prediction s) (reads s ++ [i]).

Definition argmax (bound : nat) (output : list num) : scan :=
  foldl (scan_step output) (mkScan 0 0 []) (seq 0 bound).

(** *** The vote-tally loop of [verify]

    [let winner = 0; let maxVotes = 0;
     for (let i = 0; i < 100; i++)
       if (votes[i] > maxVotes) { maxVotes = votes[i]; winner = i; }]

    A read past the end of [votes] is [undefined] and compares false. *)
Record tally : Type := mkTally {
  winner : nat;
  maxVotes : nat;
  tally_reads : list nat
}.

Definition tally_step (votes : list nat) (t : tally) (i : nat) : tally :=
  match votes !! i with
  | Some v =>
      if (maxVotes t <? v)%nat
      then mkTally i v (tally_reads t ++ [i])
      else mkTally (winner t) (maxVotes t) (tally_reads t ++ [i])
  | None => mkTally (winner t) (maxVotes t) (tally_reads t ++ [i])
  end.

Definition find_winner (votes : list nat) : tally :=
  foldl (tally_step votes) (mkTally 0 0 []) (seq 0 100).

(** *** Results *)
Record Result : Type := mkResult {
  res_prediction : nat;
  res_confidence : Q;
  res_probabilities : list num;
  res_activations : Activations;
  (** absent from the object [predict] returns, [true] in [verify]'s *)
  res_isVerified : bool
}.

(** [new Array(10).fill(0.1)] *)
Definition uniform : list num := replicate 10 (Fin (1 # 10)).

(** The 64 simulated hidden activations: [Math.random() * maxProb]. *)
Definition hidden_step (m : Q) (hid : list num) (i : nat) : M (list num) :=
  r ← Math_random;
  mret (<[i := Fin (r * m)]> hid).

Definition predict (inputData : list num) : M Result :=
  s ← get;
  match isLoaded s, window_nn s with
  | true, Some nn =>
      set_activations
        (λ a, mkActivations inputData (act_hidden a) (act_output a)) ;;
      output ← call_nn nn inputData;
      let sc := argmax 10 output in
      hid ← foldM (hidden_step (maxProb sc))
                   (replicate 64 (Fin 0)) (seq 0 64);
      set_activations
        (λ a, mkActivations (act_input a) hid output) ;;
      s' ← get;
      mret (mkResult (prediction sc) (maxProb sc) output
                    (activations s') false)
  | _, _ =>
      mret (mkResult 0 0 uniform (activations s) false)
  end.

(** *** Test-time augmentation *)

(** [const size = 28] *)
Definition size : nat := 28.

(** [newX >= 0 && newX < size && newY >= 0 && newY < size] *)
Definition in_grid (newX newY : Z) : bool :=
  (0 <=? newX)%Z && (newX <? Z.of_nat size)%Z
  && (0 <=? newY)%Z && (newY <? Z.of_nat size)%Z.

(** The body of the inner loop of the [shift] helper.  A write past the
    end of a [Float32Array] is ignored, as [<[_ := _]>] on a list is; a
    read past the end of [inputData] is [undefined]. *)
Definition shift_cell (inputData : list num) (dx dy : Z) (y : nat)
    (shifted : list num) (x : nat) : list num :=
  let newX := (Z.of_nat x + dx)%Z in
  let newY := (Z.of_nat y + dy)%Z in
  if in_grid newX newY
  then <[ y * size + x :=
            to_cell (inputData !! Z.to_nat (newY * Z.of_nat size + newX)) ]>
       shifted
  else shifted.

Definition shift (inputData : list num) (dx dy : Z) : list num :=
  foldl (λ shifted y,
           foldl (shift_cell inputData dx dy y) shifted (seq 0 size))
        (replicate (length inputData) (Fin 0))
        (seq 0 size).

(** The values [-1, 0, 1] both offset loops run through. *)
Definition offsets : list Z := [-1; 0; 1]%Z.

(** [if (dx === 0 && dy === 0) continue; variations.push(shift(dx, dy))] *)
Definition push_shift (inputData : list num) (dy : Z)
    (variations : list (list num)) (dx : Z) : list (list num) :=
  if ((dx =? 0)%Z && (dy =? 0)%Z)%bool
  then variations
  else variations ++ [shift inputData dx dy].

Definition push_shifts (inputData : list num)
    (variations : list (list num)) : list (list num) :=
  foldl (λ vs dy, foldl (push_shift inputData dy) vs offsets)
        variations offsets.

(** [inputData[i] + (Math.random() * 0.2 - 0.1)], the value of [val]
    before it is clamped; [r] is the random draw. *)
Definition noise_val (x : num) (r : Q) : num :=
  add x (Fin (r * (2 # 10) - (1 # 10))).

Definition noisy_step (inputData : list num) (noisy : list num) (i : nat)
    : M (list num) :=
  r ← Math_random;
  let val := noise_val (to_cell (inputData !! i)) r in
  mret (<[ i := max0 (min1 val) ]> noisy).

Definition augmentInput (inputData : list num) : M (list (list num)) :=
  let variations := [inputData] in
  let variations := push_shifts inputData variations in
  noisy ← foldM (noisy_step inputData)
                (replicate (length inputData) (Fin 0))
                (seq 0 (length inputData));
  mret (variations ++ [noisy]).

(** *** Voting *)

(** The body of [variations.forEach]: one vote, cast only when
    [window.nn] is there.  [prediction] is below 100, so that
    [votes[prediction]++] always hits one of the 100 slots. *)
Definition vote_step (votes : list nat) (data : list num) : M (list nat) :=
  s ← get;
  match window_nn s with
  | Some nn =>
      output ← call_nn nn data;
      let sc := argmax 100 output in
      mret (alter S (prediction sc) votes)
  | None => mret votes
  end.

(** [const votes = new Array(100).fill(0); variations.forEach(...)] *)
Definition cast_votes (variations : list (list num)) : M (list nat) :=
  foldM vote_step (replicate 100 0%nat) variations.

Definition verify (inputData : list num) : M Result :=
  variations ← augmentInput inputData;
  votes ← cast_votes variations;
  let t := find_winner votes in
  finalResult ← predict inputData;
  mret (mkResult (winner t)
                 (inject_Z (Z.of_nat (maxVotes t))
                  / inject_Z (Z.of_nat (length variations)))
                 (res_probabilities finalResult)
                 (res_activations finalResult)
                 true).

(** *** The rest of the model object *)

(** [init]: the number of 100 ms waits of
    [while (!window.nn && attempts < 20) { await ...; attempts++; }].
    [page k] is [window.nn] as the page has it after [k] waits; [budget] is
    what is left of the 20 attempts. *)
Fixpoint init_wait (page : nat → option Classifier) (attempts budget : nat)
    : nat :=
  match budget with
  | 0 => attempts
  | S budget' =>
      match page attempts with
      | None => init_wait page (S attempts) budget'
      | Some _ => attempts
      end
  end.

(** [init]: wait, then [if (window.nn) this.isLoaded = true].  The state
    it returns holds [window.nn] as it is when the loop is left. *)
Definition init (page : nat → option Classifier) (s : State) : State :=
  let attempts := init_wait page 0 20 in
  mkState (match page attempts with Some _ => true | None => isLoaded s end)
          (activations s) (page attempts) (random s) (drawn s) (calls s).






End NeuralNetwork.

(** ** The network visualisation (js/network.js): what it computes before
    it draws *)
Module NetworkViz.

(** [Math.min(a, b)] on numbers. *)
Definition min (a b : Q) : Q := if Qle_bool a b then a else b.

(** [layout.padding] *)
Definition padding : Q := 40.

Record InputNode : Type := mkInputNode {
  in_x : Q;
  in_y : Q;
  originalIndex : nat
}.

Record HiddenNode : Type := mkHiddenNode {
  hid_x : Q;
  hid_y : Q;
  index : nat
}.

Record OutputNode : Type := mkOutputNode {
  out_x : Q;
  out_y : Q;
  digit : nat
}.

Record Nodes : Type := mkNodes {
  input : list InputNode;
  hidden : list HiddenNode;
  output : list OutputNode
}.

(** A loop over a [size] x [size] grid, [y] outside and [x] inside, that
    pushes one node per cell. *)
Definition push_grid {A} (size : nat) (node : nat → nat → A) : list A :=
  foldl (λ nodes y, foldl (λ nodes x, nodes ++ [node x y]) nodes (seq 0 size))
        [] (seq 0 size).

(** [calculateLayout], for a canvas [w] wide and [h] high. *)
Definition calculateLayout (w h : Q) : Nodes :=
  let layerX0 := (padding + 30)%Q in
  let layerX1 := (w / 2)%Q in
  let layerX2 := (w - padding - 30)%Q in
  let inputGridSize := 14 in
  let inputSpacing := min ((h - padding * 2) / 14) 10 in
  let inputStartY := ((h - inputSpacing * 14) / 2)%Q in
  let input :=
    push_grid inputGridSize
      (λ x y,
         mkInputNode
           (layerX0 + inject_Z (Z.of_nat x) * inputSpacing
            - (14 * inputSpacing) / 2 + 50)%Q
           (inputStartY + inject_Z (Z.of_nat y) * inputSpacing
            + inputSpacing / 2)%Q
           (y * 2 * 28 + x * 2)) in
  let hiddenGridSize := 8 in
  let hiddenSpacing := min ((h - padding * 2) / 8) 25 in
  let hiddenStartY := ((h - hiddenSpacing * 8) / 2)%Q in
  let hidden :=
    push_grid hiddenGridSize
      (λ x y,
         mkHiddenNode
           (layerX1 + (inject_Z (Z.of_nat x) - 8 / 2 + (1 # 2))
                      * hiddenSpacing)%Q
           (hiddenStartY + inject_Z (Z.of_nat y) * hiddenSpacing
            + hiddenSpacing / 2)%Q
           (y * hiddenGridSize + x)) in
  let outputSpacing := ((h - padding * 2) / 10)%Q in
  let outputStartY := (padding + outputSpacing / 2)%Q in
  let output :=
    foldl (λ nodes i,
             nodes ++ [mkOutputNode
                         layerX2
                         (outputStartY
                          + inject_Z (Z.of_nat i) * outputSpacing)%Q
                         i])
          [] (seq 0 10) in
  mkNodes input hidden output.

(** [activations?.layer?.[idx] || dflt]: the number read, or [dflt] when
    there are no activations, the read is past the end, or the number is
    zero or [NaN]. *)
Definition or_default (v : option num) (dflt : Q) : Q :=
  match v with
  | Some (Fin q) => if Qeq_bool q 0 then dflt else q
  | Some NaN | None => dflt
  end.

(** [drawInputLayer]: the radius and the opacity of an input node. *)
Definition input_radius (a : option NeuralNetwork.Activations)
    (node : InputNode) : Q :=
  let activation :=
    or_default (a ≫= λ a, NeuralNetwork.act_input a !! originalIndex node)
               0 in
  (2 + activation * 2)%Q.

Definition input_alpha (a : option NeuralNetwork.Activations)
    (node : InputNode) : Q :=
  let activation :=
    or_default (a ≫= λ a, NeuralNetwork.act_input a !! originalIndex node)
               0 in
  ((3 # 10) + activation * (7 # 10))%Q.

(** [drawOutputLayer]: the scan for the highest output,
    [activations.output.forEach((val, idx) => { if (val > maxVal) ... })],
    which is the argmax loop over the whole array, and nothing when there
    are no activations. *)
Definition output_max (a : option NeuralNetwork.Activations)
    : NeuralNetwork.scan :=
  match a with
  | Some a =>
      NeuralNetwork.argmax (length (NeuralNetwork.act_output a))
                           (NeuralNetwork.act_output a)
  | None => NeuralNetwork.mkScan 0 0 []
  end.

(** [const isMax = idx === maxIdx && maxVal > 0.2] *)
Definition isMax (a : option NeuralNetwork.Activations) (idx : nat) : bool :=
  let m := output_max a in
  (idx =? NeuralNetwork.prediction m)%nat
  && match (NeuralNetwork.maxProb m ?= 2 # 10)%Q with
     | Gt => true
     | _ => false
     end.

(** [const bgAlpha = isMax ? 0.9 : 0.3 + prob * 0.5] with
    [prob = activations?.output?.[idx] || 0.1] *)
Definition bgAlpha (a : option NeuralNetwork.Activations) (idx : nat) : Q :=
  let prob :=
    or_default (a ≫= λ a, NeuralNetwork.act_output a !! idx) (1 # 10) in
  if isMax a idx then 9 # 10 else ((3 # 10) + prob * (5 # 10))%Q.


(** [animate]: the ease function,
    [t < 0.5 ? 4 * t * t * t : 1 - Math.pow(-2 * t + 2, 3) / 2]. *)
Definition ease (t : Q) : Q :=
  match (t ?= 1 # 2)%Q with
  | Lt => (4 * t * t * t)%Q
  | _ => (1 - (-2 * t + 2) ^ 3 / 2)%Q
  end.

(** [Math.min(elapsed / duration, 1)] *)
Definition progress (duration elapsed : Q) : Q :=
  min (elapsed / duration) 1.



End NetworkViz.

(** ** The application object: game modes, score and the predict button
    (js/main.js)

    The page around the application is part of the state: the pixels of the
    drawing canvas, the intervals and timeouts handed to the browser, and
    the messages shown.  What the methods write to the document otherwise
    (texts, styles, the network animation) is left out. *)
Module Game.

(** The texts handed to [showMessage]. *)
Inductive Message : Type :=
| DrawSomethingFirst
| CorrectPoints
| TryAgain
| GameOver (score : nat)
| ModeIs (mode : string)
| Learning (digit : nat)
| Learned.

(** The callbacks handed to [setTimeout] that touch the state. *)
Inductive Timeout : Type :=
| AutoNext      (** after 1500 ms: clear the canvas, next challenge *)
| BackToFree    (** after 3000 ms: click the free-mode button *).

Record AppState : Type := mkApp {
  gameMode : string;
  score : nat;
  streak : nat;
  targetDigit : option Z;
  timer : Z;
  timerInterval : option positive;
  isGameActive : bool;
  lastImageData : option (list num);
  lastPrediction : option nat
}.

Record Page : Type := mkPage {
  (** the buffer [drawCtx.getImageData(0, 0, canvasSize, canvasSize)] reads *)
  canvas : list Byte.byte;
  (** the handles of the running intervals *)
  intervals : list positive;
  next_handle : positive;
  (** the pending timeouts whose callbacks touch the state; those that
      only restore a text or a style are left out *)
  timeouts : list Timeout;
  messages : list Message
}.

Record World : Type := mkWorld {
  app : AppState;
  page : Page;
  net : NeuralNetwork.State
}.

(** The application object as the script creates it. *)
Definition initial_app : AppState :=
  mkApp "free" 0 0 None 60 None false None None.

Definition W (A : Type) : Type := World → A * World.

#[global] Instance W_ret : MRet W := λ A a w, (a, w).

#[global] Instance W_bind : MBind W :=
  λ A B k m w, let '(a, w') := m w in k a w'.

Definition get_app : W AppState := λ w, (app w, w).
Definition put_app (a : AppState) : W unit :=
  λ w, (tt, mkWorld a (page w) (net w)).
Definition get_page : W Page := λ w, (page w, w).
Definition put_page (p : Page) : W unit :=
  λ w, (tt, mkWorld (app w) p (net w)).

(** A method of the model object, run on the model's part of the world. *)
Definition liftN {A} (m : NeuralNetwork.M A) : W A :=
  λ w, let '(a, n) := m (net w) in (a, mkWorld (app w) (page w) n).

(** *** The browser *)

Definition setInterval : W positive :=
  p ← get_page;
  put_page (mkPage (canvas p) (intervals p ++ [next_handle p])
                   (Pos.succ (next_handle p)) (timeouts p) (messages p));;
  mret (next_handle p).

(** [clearInterval(handle)]; nothing happens for [undefined]. *)
Definition clearInterval (handle : option positive) : W unit :=
  match handle with
  | Some id =>
      p ← get_page;
      put_page (mkPage (canvas p)
                       (filter (λ i, i ≠ id) (intervals p))
                       (next_handle p) (timeouts p) (messages p))
  | None => mret tt
  end.

Definition setTimeout (t : Timeout) : W unit :=
  p ← get_page;
  put_page (mkPage (canvas p) (intervals p) (next_handle p)
                   (timeouts p ++ [t]) (messages p)).

Definition showMessage (m : Message) : W unit :=
  p ← get_page;
  put_page (mkPage (canvas p) (intervals p) (next_handle p)
                   (timeouts p) (messages p ++ [m])).

(** One pixel of [fillStyle = '#000000']: black, opaque. *)
Definition black_pixel : list Byte.byte :=
  [Byte.x00; Byte.x00; Byte.x00; Byte.xff].

(** [clearCanvas]: [fillRect(0, 0, canvasSize, canvasSize)] in black. *)
Definition clearCanvas : W unit :=
  p ← get_page;
  put_page (mkPage (mjoin (replicate (App.canvasSize * App.canvasSize)
                                     black_pixel))
                   (intervals p) (next_handle p) (timeouts p) (messages p)).

(** *** Game modes *)

(** [nextChallenge]: [this.targetDigit = Math.floor(Math.random() * 10)] *)
Definition nextChallenge : W unit :=
  r ← liftN NeuralNetwork.Math_random;
  a ← get_app;
  put_app (mkApp (gameMode a) (score a) (streak a)
                 (Some (Qfloor (r * 10)))
                 (timer a) (timerInterval a) (isGameActive a)
                 (lastImageData a) (lastPrediction a)).

Definition resetGame : W unit :=
  a ← get_app;
  put_app (mkApp (gameMode a) 0 0 (targetDigit a) 60 (timerInterval a) true
                 (lastImageData a) (lastPrediction a));;
  match timerInterval a with
  | Some id => clearInterval (Some id)
  | None => mret tt
  end.

Definition endGame : W unit :=
  a ← get_app;
  clearInterval (timerInterval a);;
  put_app (mkApp (gameMode a) (score a) (streak a) (targetDigit a)
                 (timer a) (timerInterval a) false
                 (lastImageData a) (lastPrediction a));;
  showMessage (GameOver (score a));;
  setTimeout BackToFree.

(** The callback [startTimer] hands to [setInterval]. *)
Definition tick : W unit :=
  a ← get_app;
  put_app (mkApp (gameMode a) (score a) (streak a) (targetDigit a)
                 (timer a - 1) (timerInterval a) (isGameActive a)
                 (lastImageData a) (lastPrediction a));;
  if (timer a - 1 <=? 0)%Z then endGame else mret tt.

Definition startTimer : W unit :=
  a ← get_app;
  id ← setInterval;
  put_app (mkApp (gameMode a) (score a) (streak a) (targetDigit a)
                 60 (Some id) (isGameActive a)
                 (lastImageData a) (lastPrediction a)).

Definition setGameMode (mode : string) : W unit :=
  a ← get_app;
  put_app (mkApp mode (score a) (streak a) (targetDigit a)
                 (timer a) (timerInterval a) (isGameActive a)
                 (lastImageData a) (lastPrediction a));;
  resetGame;;
  (if String.eqb mode "time" then startTimer;; nextChallenge
   else if String.eqb mode "challenge" then nextChallenge
   else
     a ← get_app;
     put_app (mkApp (gameMode a) (score a) (streak a) None
                    (timer a) (timerInterval a) (isGameActive a)
                    (lastImageData a) (lastPrediction a)));;
  showMessage (ModeIs mode).

(** *** Prediction and scoring *)

Definition handleGameLogic (prediction : nat) : W unit :=
  a ← get_app;
  if String.eqb (gameMode a) "free" then mret tt
  else
    match targetDigit a with
    | Some target =>
        if (Z.of_nat prediction =? target)%Z
        then
          put_app (mkApp (gameMode a) (score a + (10 + streak a * 2))
                         (streak a + 1) (targetDigit a)
                         (timer a) (timerInterval a) (isGameActive a)
                         (lastImageData a) (lastPrediction a));;
          showMessage CorrectPoints;;
          setTimeout AutoNext
        else
          put_app (mkApp (gameMode a) (score a) 0 (targetDigit a)
                         (timer a) (timerInterval a) (isGameActive a)
                         (lastImageData a) (lastPrediction a));;
          showMessage TryAgain
    | None => mret tt
    end.

(** [imageData.some(v => v > 0.1)] *)
Definition hasContent (imageData : list num) : bool :=
  existsb (λ v, match v with
                | Fin q => match (q ?= 1 # 10)%Q with Gt => true | _ => false end
                | NaN => false
                end) imageData.

(** [updatePrediction]: [this.lastPrediction = prediction] *)
Definition updatePrediction (result : NeuralNetwork.Result) : W unit :=
  a ← get_app;
  put_app (mkApp (gameMode a) (score a) (streak a) (targetDigit a)
                 (timer a) (timerInterval a) (isGameActive a)
                 (lastImageData a)
                 (Some (NeuralNetwork.res_prediction result))).

(** [predict], the handler of the predict button. *)
Definition predict : W unit :=
  p ← get_page;
  let imageData := App.getImageData (canvas p) in
  a ← get_app;
  put_app (mkApp (gameMode a) (score a) (streak a) (targetDigit a)
                 (timer a) (timerInterval a) (isGameActive a)
                 (Some imageData) (lastPrediction a));;
  if hasContent imageData
  then
    result ← liftN (NeuralNetwork.predict imageData);
    updatePrediction result;;
    handleGameLogic (NeuralNetwork.res_prediction result)
  else showMessage DrawSomethingFirst.

(** [handleCorrection]; [trainOnExample] only warns and waits. *)
Definition handleCorrection (correctDigit : nat) : W unit :=
  a ← get_app;
  match lastImageData a with
  | None => mret tt
  | Some _ => showMessage (Learning correctDigit);; showMessage Learned
  end.

(** *** What can happen on the page *)

(** Running the callback of a timeout. *)
Definition run_timeout (t : Timeout) : W unit :=
  match t with
  | AutoNext => clearCanvas;; nextChallenge
  | BackToFree => setGameMode "free"
  end.

Inductive Event : Type :=
| ModeClick (mode : string)       (** a game-mode button *)
| PredictClick                    (** the predict button, Enter or space *)
| ClearClick                      (** the clear button or the key c *)
| CorrectionClick (digit : nat)   (** a correction button *)
| Stroke (pixels : list Byte.byte) (** drawing: the canvas afterwards *)
| IntervalFires (id : positive)   (** the browser runs an interval *)
| TimeoutFires (k : nat)          (** the browser runs pending timeout [k] *).

Definition on_event (e : Event) : W unit :=
  match e with
  | ModeClick mode => setGameMode mode
  | PredictClick => predict
  | ClearClick => clearCanvas
  | CorrectionClick digit => handleCorrection digit
  | Stroke pixels =>
      p ← get_page;
      put_page (mkPage pixels (intervals p) (next_handle p)
                       (timeouts p) (messages p))
  | IntervalFires id =>
      p ← get_page;
      if bool_decide (id ∈ intervals p) then tick else mret tt
  | TimeoutFires k =>
      p ← get_page;
      match timeouts p !! k with
      | Some t =>
          put_page (mkPage (canvas p) (intervals p) (next_handle p)
                           (delete k (timeouts p)) (messages p));;
          run_timeout t
      | None => mret tt
      end
  end.

(** The world after a sequence of events. *)
Definition run (events : list Event) (w : World) : World :=
  foldl (λ w e, (on_event e w).2) w events.

End Game.

(** * Auxiliary definitions for the statements and their proofs *)

(** ** Grids filled cell by cell

    [step y r x] is the body of the inner loop, [upd y x] the value it
    stores for the cell [(x, y)], if any. *)

(** What cell [j] of a grid of width [W] holds once its turn has come. *)
Definition cell_of {A} (W : nat) (upd : nat → nat → option A)
    (r : list A) (j : nat) : option A :=
  match upd (j / W) (j `mod` W) with
  | Some v => (λ _, v) <$> r !! j
  | None => r !! j
  end.

Definition fill_row {A} (step : nat → list A → nat → list A)
    (y : nat) (r : list A) (n : nat) : list A :=
  foldl (step y) r (seq 0 n).

Definition fill_rows {A} (W : nat) (step : nat → list A → nat → list A)
    (r : list A) (h : nat) : list A :=
  foldl (λ r y, fill_row step y r W) r (seq 0 h).

(** ** Feature vectors as grids *)

(** The value of a feature vector at grid coordinate [(x, y)], row-major;
    nothing outside the grid. *)
Definition pixel (v : list num) (x y : Z) : option num :=
  if NeuralNetwork.in_grid x y
  then v !! Z.to_nat (y * Z.of_nat NeuralNetwork.size + x)
  else None.

(** What [shift] stores for the cell [(x, y)], if anything. *)
Definition shift_upd (inputData : list num) (dx dy : Z) (y x : nat)
    : option num :=
  if NeuralNetwork.in_grid (Z.of_nat x + dx) (Z.of_nat y + dy)
  then Some (to_cell (inputData !! Z.to_nat
               ((Z.of_nat y + dy) * Z.of_nat NeuralNetwork.size
                + (Z.of_nat x + dx))))
  else None.

(** The eight offsets [(dx, dy)] in the order of the specification:
    [dy] ascending, then [dx] ascending, without [(0, 0)]. *)
Definition shift_offsets : list (Z * Z) :=
  [(-1, -1); (0, -1); (1, -1); (-1, 0); (1, 0); (-1, 1); (0, 1); (1, 1)]%Z.

(** ** States *)

(** [n] more draws from [Math.random]. *)
Definition advance (n : nat) (s : NeuralNetwork.State) : NeuralNetwork.State :=
  NeuralNetwork.mkState
    (NeuralNetwork.isLoaded s) (NeuralNetwork.activations s)
    (NeuralNetwork.window_nn s) (NeuralNetwork.random s)
    (NeuralNetwork.drawn s + n) (NeuralNetwork.calls s).

(** The classifier was called on each element of [l] in turn. *)
Definition log_calls (l : list (list num)) (s : NeuralNetwork.State)
    : NeuralNetwork.State :=
  NeuralNetwork.mkState
    (NeuralNetwork.isLoaded s) (NeuralNetwork.activations s)
    (NeuralNetwork.window_nn s) (NeuralNetwork.random s)
    (NeuralNetwork.drawn s) (NeuralNetwork.calls s ++ l).

(** Cell [i] of the noisy variant that [augmentInput] builds from state
    [s]: the [i]-th draw from there on perturbs [inputData[i]]. *)
Definition noisy_cell (inputData : list num) (s : NeuralNetwork.State)
    (i : nat) : num :=
  max0 (min1 (NeuralNetwork.noise_val
                (to_cell (inputData !! i))
                (NeuralNetwork.random s (NeuralNetwork.drawn s + i)))).

(** The vote tally [verify] holds when its [forEach] is over. *)
Definition votes_of (inputData : list num) (s : NeuralNetwork.State)
    : list nat :=
  let '(variations, s1) := NeuralNetwork.augmentInput inputData s in
  (NeuralNetwork.cast_votes variations s1).1.

(** ** The two argmax loops, [n] iterations in *)

(** The invariant of the loop over a classifier output: [maxProb] bounds
    the numbers seen so far; when it is positive, [prediction] is the
    first index that holds it; when it is still zero, [prediction] is
    still 0.  [reads] grows by one index per iteration. *)
Definition scan_inv (output : list num) (n : nat)
    (sc : NeuralNetwork.scan) : Prop :=
  (0 <= NeuralNetwork.maxProb sc)%Q
  ∧ (∀ i q, i < n → output !! i = Some (Fin q) →
       (q <= NeuralNetwork.maxProb sc)%Q)
  ∧ ((0 < NeuralNetwork.maxProb sc)%Q →
       NeuralNetwork.prediction sc < n
       ∧ output !! NeuralNetwork.prediction sc
         = Some (Fin (NeuralNetwork.maxProb sc))
       ∧ ∀ i q, i < NeuralNetwork.prediction sc →
           output !! i = Some (Fin q) → (q < NeuralNetwork.maxProb sc)%Q)
  ∧ (¬ (0 < NeuralNetwork.maxProb sc)%Q → NeuralNetwork.prediction sc = 0)
  ∧ NeuralNetwork.reads sc = seq 0 n.

(** The same for the loop over the vote tally. *)
Definition tally_inv (votes : list nat) (n : nat)
    (t : NeuralNetwork.tally) : Prop :=
  (∀ i v, i < n → votes !! i = Some v → v ≤ NeuralNetwork.maxVotes t)
  ∧ (0 < NeuralNetwork.maxVotes t →
       NeuralNetwork.winner t < n
       ∧ votes !! NeuralNetwork.winner t = Some (NeuralNetwork.maxVotes t)
       ∧ ∀ i v, i < NeuralNetwork.winner t →
           votes !! i = Some v → v < NeuralNetwork.maxVotes t)
  ∧ (NeuralNetwork.maxVotes t = 0 → NeuralNetwork.winner t = 0)
  ∧ NeuralNetwork.tally_reads t = seq 0 n.

(** [!(!this.isLoaded || !window.nn)]: the guard of [predict] lets the
    call through. *)
Definition ready (s : NeuralNetwork.State) : bool :=
  NeuralNetwork.isLoaded s
  && match NeuralNetwork.window_nn s with Some _ => true | None => false end.

(** ** Class distributions *)

(** Ten scores, each a number that is not negative. *)
Definition ClassDistribution (d : list num) : Prop :=
  length d = 10 ∧ Forall (λ v, ∃ q, v = Fin q ∧ (0 <= q)%Q) d.

(** ** Sample inputs *)

(** A blank canvas. *)
Definition blank : list num := replicate 784 (Fin 0).

(** A white canvas. *)
Definition white : list num := replicate 784 (Fin 1).

(** A classifier that always answers with the one-hot vector of [c]. *)
Definition onehot (c : nat) : NeuralNetwork.Classifier :=
  λ _ _, <[ c := Fin 1 ]> (replicate 10 (Fin 0)).

(** A classifier that answers class 3 to its first six queries and class 7
    from then on. *)
Definition six_then_four : NeuralNetwork.Classifier :=
  λ hist _, if length hist <? 6
            then <[ 3 := Fin 1 ]> (replicate 10 (Fin 0))
            else <[ 7 := Fin 1 ]> (replicate 10 (Fin 0)).

Definition fresh_activations : NeuralNetwork.Activations :=
  NeuralNetwork.mkActivations
    (replicate 784 (Fin 0)) (replicate 64 (Fin 0)) (replicate 10 (Fin 0)).

(** The model object after a successful [init], with [nn] loaded. *)
Definition loaded_state (nn : NeuralNetwork.Classifier)
    : NeuralNetwork.State :=
  NeuralNetwork.mkState true fresh_activations (Some nn) (λ _, 1 # 2) 0 [].

(** The model object before [window.nn] is there. *)
Definition unloaded_state : NeuralNetwork.State :=
  NeuralNetwork.mkState false fresh_activations None (λ _, 1 # 2) 0 [].

(** A distribution with a tie between classes 1 and 2, and a vote tally
    with a tie between classes 3 and 7. *)
Definition tied_scores : list num :=
  [Fin (1 # 5); Fin (1 # 2); Fin (1 # 2); Fin (1 # 10); Fin 0;
   Fin 0; Fin 0; Fin 0; Fin 0; Fin 0].

Definition tied_votes : list nat :=
  [0; 0; 0; 5; 0; 0; 0; 5; 0; 0] ++ replicate 90 0.

(** ** The normaliser in the words of the specification *)

(** The red byte of the pixel [(px, py)] of a canvas [cs] pixels wide. *)
Definition red (cs : nat) (data : list Byte.byte) (px py : Z) : nat :=
  match data !! Z.to_nat ((py * Z.of_nat cs + px) * 4) with
  | Some b => N.to_nat (Byte.to_N b)
  | None => 0
  end.

(** The [k]-th cell boundary: the floor of [k * cs / gs]. *)
Definition edge (gs cs k : nat) : Z :=
  (Z.of_nat k * Z.of_nat cs / Z.of_nat gs)%Z.

(** The columns and the rows of the pixels of cell [k] along one axis. *)
Definition span (gs cs k : nat) : list Z :=
  seqZ (edge gs cs k) (edge gs cs (k + 1) - edge gs cs k).

(** The sum of the red bytes of the pixels of cell [(x, y)], and their
    number. *)
Definition cell_sum (gs cs : nat) (data : list Byte.byte) (x y : nat) : nat :=
  sum_list_with
    (λ py, sum_list_with (λ px, red cs data px py) (span gs cs x))
    (span gs cs y).

Definition cell_count (gs cs x y : nat) : nat :=
  length (span gs cs y) * length (span gs cs x).

(** The average over the cell, divided by 255. *)
Definition cell_mean (gs cs : nat) (data : list Byte.byte) (x y : nat) : Q :=
  (inject_Z (Z.of_nat (cell_sum gs cs data x y))
   / inject_Z (Z.of_nat (cell_count gs cs x y)) / 255)%Q.

(** What [getImageData] stores for the cell [(x, y)]. *)
Definition cell_upd (gs cs : nat) (data : list Byte.byte) (y x : nat)
    : option num :=
  let cellSize := (inject_Z (Z.of_nat cs) / inject_Z (Z.of_nat gs))%Q in
  let a := App.cell_acc cs data
             (App.cell_edge cellSize x) (App.cell_edge cellSize (x + 1))
             (App.cell_edge cellSize y) (App.cell_edge cellSize (y + 1)) in
  Some (div (div (App.sum a) (Fin (inject_Z (Z.of_nat (App.count a)))))
            (Fin 255)).

(** The application's canvas, all white. *)
Definition white_canvas : list Byte.byte :=
  replicate (4 * App.canvasSize * App.canvasSize) Byte.xff.


(** ** Further notions used below *)

(** A feature vector: 784 numbers in [0, 1]. *)
Definition FeatureVector (v : list num) : Prop :=
  length v = 784 ∧ Forall (within 0 1) v.

(** A classifier whose answer does not depend on the calls made before. *)
Definition stateless (nn : NeuralNetwork.Classifier) : Prop :=
  ∀ hist hist' x, nn hist x = nn hist' x.

(** [Math.random] stays in [0, 1). *)
Definition random_in_range (s : NeuralNetwork.State) : Prop :=
  ∀ n, (0 <= NeuralNetwork.random s n < 1)%Q.

(** A page on which [window.nn] appears after [k] waits. *)
Definition appears_after (k : nat) (nn : NeuralNetwork.Classifier)
    : nat → option NeuralNetwork.Classifier :=
  λ j, if (j <? k)%nat then None else Some nn.

(** ** The page and the game *)

(** A canvas of the application's size, every pixel [px]. *)
Definition painted (px : list Byte.byte) : list Byte.byte :=
  mjoin (replicate (App.canvasSize * App.canvasSize) px).

(** The canvas after [clearCanvas]. *)
Definition black_canvas : list Byte.byte := painted Game.black_pixel.

(** A white canvas with another green and blue. *)
Definition tinted_canvas : list Byte.byte :=
  painted [Byte.xff; Byte.x00; Byte.x80; Byte.xff].

(** The page when the application starts: a cleared canvas, nothing
    scheduled, nothing shown. *)
Definition initial_page : Game.Page :=
  Game.mkPage black_canvas [] 1%positive [] [].

Definition initial_world (n : NeuralNetwork.State) : Game.World :=
  Game.mkWorld Game.initial_app initial_page n.

(** What every reachable state of the game satisfies: the countdown stays
    within 0..60; at most one interval runs, and only in time mode, while
    the game is active and the countdown is above 0, under the handle the
    application holds; the target is a digit; the score is at least what
    the current streak has earned. *)
Definition game_inv (w : Game.World) : Prop :=
  let a := Game.app w in
  let p := Game.page w in
  (0 ≤ Game.timer a ≤ 60)%Z
  ∧ (Game.intervals p = []
     ∨ ∃ id, Game.intervals p = [id]
           ∧ Game.timerInterval a = Some id
           ∧ Game.gameMode a = "time"
           ∧ Game.isGameActive a = true
           ∧ (1 ≤ Game.timer a)%Z)
  ∧ (∀ t, Game.targetDigit a = Some t → (0 ≤ t ≤ 9)%Z)
  ∧ Game.streak a * (Game.streak a + 9) ≤ Game.score a
  ∧ random_in_range (Game.net w).

(** The player answers the challenge right: the prediction handed to
    [handleGameLogic] is the target. *)
Definition right_answer (w : Game.World) : Game.World :=
  match Game.targetDigit (Game.app w) with
  | Some t => (Game.handleGameLogic (Z.to_nat t) w).2
  | None => w
  end.

(** One round won: a new challenge, then the right answer. *)
Definition round_won (w : Game.World) : Game.World :=
  right_answer (Game.nextChallenge w).2.

(** * Filling a row-major grid cell by cell

    Both [shift] and [getImageData] run two nested loops over a grid of
    width [W] and store at most one value per cell [(x, y)], at index
    [y * W + x].  The lemmas of this section read such a grid back. *)
Section grid.
Context {A : Type} (W : nat).
Variable upd : nat → nat → option A.
Variable step : nat → list A → nat → list A.
Hypothesis step_spec : ∀ y r x,
  step y r x = match upd y x with
               | Some v => <[ y * W + x := v ]> r
               | None => r
               end.

#[local] Abbreviation cell_of := (cell_of W upd).
#[local] Abbreviation fill_row := (fill_row step).
#[local] Abbreviation fill_rows := (fill_rows W step).

Lemma step_length y r x : length (step y r x) = length r.
Proof. rewrite step_spec. destruct (upd y x); [apply length_insert|done]. Qed.

Lemma fill_row_length y r n : length (fill_row y r n) = length r.
Proof.
  unfold fill_row. induction n as [|n IH]; [done|].
  by rewrite seq_S, foldl_snoc, step_length.
Qed.

Lemma fill_rows_length r h : length (fill_rows r h) = length r.
Proof.
  unfold fill_rows. induction h as [|h IH]; [done|].
  by rewrite seq_S, foldl_snoc, fill_row_length.
Qed.

Lemma cell_index y x : x < W → (y * W + x) / W = y ∧ (y * W + x) `mod` W = x.
Proof.
  intros Hx. split.
  - rewrite Nat.div_add_l by lia. rewrite Nat.div_small by lia. lia.
  - rewrite Nat.add_comm, Nat.Div0.mod_add. by apply Nat.mod_small.
Qed.

Lemma fill_row_lookup y n r j :
  n ≤ W →
  fill_row y r n !! j =
    if decide (y * W ≤ j < y * W + n) then cell_of r j else r !! j.
Proof.
  unfold fill_row. induction n as [|n IH]; intros Hn.
  - simpl. case_decide; [lia | done].
  - rewrite seq_S, foldl_snoc, step_spec. simpl.
    destruct (cell_index y n) as [Hdiv Hmod]; [lia|].
    pose proof (fill_row_length y r n) as Hlen. unfold fill_row in Hlen.
    destruct (decide (j = y * W + n)) as [->|Hne].
    + rewrite decide_True by lia. unfold cell_of. rewrite Hdiv, Hmod.
      destruct (upd y n) as [v|].
      * destruct (decide (y * W + n < length r)) as [Hlt|Hge].
        -- rewrite list_lookup_insert_eq by lia.
           by destruct (lookup_lt_is_Some_2 r (y * W + n) Hlt) as [a ->].
        -- rewrite list_insert_ge, IH by lia.
           rewrite decide_False by lia.
           by rewrite lookup_ge_None_2 by lia.
      * rewrite IH by lia. by rewrite decide_False by lia.
    + assert (Hj : foldl (step y) r (seq 0 n) !! j =
                   if decide (y * W ≤ j < y * W + S n)
                   then cell_of r j else r !! j).
      { rewrite IH by lia. repeat case_decide; done || lia. }
      destruct (upd y n) as [v|]; [|done].
      by rewrite list_lookup_insert_ne by done.
Qed.

Lemma fill_rows_lookup h r j :
  fill_rows r h !! j =
    if decide (j < h * W) then cell_of r j else r !! j.
Proof.
  unfold fill_rows. induction h as [|h IH].
  - by rewrite decide_False by lia.
  - rewrite seq_S, foldl_snoc. simpl.
    rewrite fill_row_lookup by done. unfold cell_of in *.
    rewrite IH.
    repeat case_decide; try done; try lia.
Qed.

Lemma fill_rows_cell h r x y :
  x < W → y < h →
  fill_rows r h !! (y * W + x) =
    match upd y x with
    | Some v => (λ _, v) <$> r !! (y * W + x)
    | None => r !! (y * W + x)
    end.
Proof.
  intros Hx Hy. rewrite fill_rows_lookup.
  rewrite decide_True by nia. unfold cell_of.
  by destruct (cell_index y x Hx) as [-> ->].
Qed.
End grid.

(** * The shift helper of [augmentInput] *)
Section shift_facts.
Import NeuralNetwork.

Lemma shift_cell_spec inputData dx dy y r x :
  shift_cell inputData dx dy y r x =
    match shift_upd inputData dx dy y x with
    | Some v => <[ y * size + x := v ]> r
    | None => r
    end.
Proof. unfold shift_cell, shift_upd. by destruct (in_grid _ _). Qed.

Lemma shift_fill inputData dx dy :
  shift inputData dx dy =
    fill_rows size (shift_cell inputData dx dy)
              (replicate (length inputData) (Fin 0)) size.
Proof. unfold shift, fill_rows, fill_row. done. Qed.

Lemma shift_length inputData dx dy :
  length (shift inputData dx dy) = length inputData.
Proof.
  rewrite shift_fill.
  rewrite (fill_rows_length size _ _ (shift_cell_spec inputData dx dy)).
  apply length_replicate.
Qed.

Lemma in_grid_spec x y :
  in_grid x y = true ↔
  (0 ≤ x < Z.of_nat size)%Z ∧ (0 ≤ y < Z.of_nat size)%Z.
Proof. unfold in_grid. rewrite !andb_true_iff. lia. Qed.

Lemma pixel_nat v (x y : nat) :
  x < size → y < size →
  pixel v (Z.of_nat x) (Z.of_nat y) = v !! (y * size + x).
Proof.
  intros Hx Hy. unfold pixel.
  destruct (in_grid _ _) eqn:Hg.
  - f_equal. lia.
  - apply not_true_iff_false in Hg. rewrite in_grid_spec in Hg. lia.
Qed.

Lemma pixel_is_Some v x y :
  length v = size * size → in_grid x y = true → is_Some (pixel v x y).
Proof.
  intros Hlen Hg. unfold pixel. rewrite Hg.
  apply in_grid_spec in Hg. apply lookup_lt_is_Some_2.
  rewrite Hlen. unfold size in *. lia.
Qed.

(** The shifted vector, cell by cell. *)
Lemma shift_pixel v dx dy x y :
  length v = size * size → in_grid x y = true →
  pixel (shift v dx dy) x y =
    if in_grid (x + dx) (y + dy)
    then pixel v (x + dx) (y + dy)
    else Some (Fin 0).
Proof.
  intros Hlen Hg. pose proof Hg as Hxy. apply in_grid_spec in Hxy.
  destruct Hxy as [Hx Hy].
  rewrite <- (Z2Nat.id x), <- (Z2Nat.id y) by lia.
  set (x' := Z.to_nat x). set (y' := Z.to_nat y).
  assert (x' < size) by lia. assert (y' < size) by lia.
  rewrite pixel_nat, shift_fill by done.
  rewrite (fill_rows_cell size _ _ (shift_cell_spec v dx dy)) by done.
  assert (Hr : replicate (length v) (Fin 0) !! (y' * size + x')
               = Some (Fin 0)).
  { apply lookup_replicate_2. rewrite Hlen. unfold size in *. nia. }
  rewrite Hr. unfold shift_upd.
  destruct (in_grid (Z.of_nat x' + dx) (Z.of_nat y' + dy)) eqn:Hs; [|done].
  simpl. destruct (pixel_is_Some v _ _ Hlen Hs) as [c Hc].
  rewrite Hc. unfold pixel in Hc. rewrite Hs in Hc. by rewrite Hc.
Qed.
End shift_facts.


(** * Loops in the state monad *)
Section monad_facts.
Import NeuralNetwork.

Lemma foldM_snoc {A B} (body : A → B → M A) acc l b s :
  foldM body acc (l ++ [b]) s =
    let '(a, s') := foldM body acc l s in body a b s'.
Proof.
  revert acc s. induction l as [|c l IH]; intros acc s; simpl.
  - unfold mbind, M_bind, mret, M_ret. by destruct (body acc b s).
  - unfold mbind, M_bind. destruct (body acc c s) as [a1 s1].
    apply IH.
Qed.

Lemma advance_0 s : advance 0 s = s.
Proof. destruct s. unfold advance. simpl. by rewrite Nat.add_0_r. Qed.

Lemma advance_S n s :
  (Math_random (advance n s)).2 = advance (S n) s.
Proof. unfold Math_random, advance. simpl. f_equal. lia. Qed.

(** The noise loop of [augmentInput]: [n] cells done. *)
Lemma noisy_loop v init s n :
  ∃ r, foldM (noisy_step v) init (seq 0 n) s = (r, advance n s)
     ∧ length r = length init
     ∧ ∀ i, r !! i = if decide (i < n)
                     then (λ _, noisy_cell v s i) <$> init !! i
                     else init !! i.
Proof.
  induction n as [|n (r & Hrun & Hlen & Hr)].
  - exists init. rewrite advance_0. split; [done|split; [done|]].
    intros i. by rewrite decide_False by lia.
  - exists (<[ n := noisy_cell v s n ]> r).
    rewrite seq_S, foldM_snoc, Hrun. simpl.
    split; [|split].
    + unfold noisy_step, mbind, M_bind, mret, M_ret.
      rewrite <- advance_S. unfold Math_random, noisy_cell. simpl.
      done.
    + by rewrite length_insert.
    + intros i. rewrite list_lookup_insert, Hlen, Hr.
      destruct (decide (i = n)) as [->|Hne].
      * rewrite (decide_True (P := n < S n)) by lia.
        rewrite (decide_False (P := n < n)) by lia.
        case_decide as Hd.
        -- destruct Hd as [_ Hd].
           by destruct (lookup_lt_is_Some_2 init n Hd) as [a ->].
        -- by rewrite lookup_ge_None_2 by lia.
      * rewrite decide_False by lia.
        repeat case_decide; done || lia.
Qed.

Lemma push_shifts_eq v :
  push_shifts v [v] = v :: ((λ d, shift v d.1 d.2) <$> shift_offsets).
Proof. done. Qed.

(** [augmentInput] in closed form. *)
Lemma augmentInput_run v s :
  ∃ noisy,
    augmentInput v s =
      (v :: ((λ d, shift v d.1 d.2) <$> shift_offsets) ++ [noisy],
       advance (length v) s)
    ∧ length noisy = length v
    ∧ ∀ i, i < length v → noisy !! i = Some (noisy_cell v s i).
Proof.
  destruct (noisy_loop v (replicate (length v) (Fin 0)) s (length v))
    as (noisy & Hrun & Hlen & Hcell).
  exists noisy. split; [|split].
  - unfold augmentInput, mbind, M_bind, mret, M_ret.
    by rewrite Hrun, push_shifts_eq.
  - by rewrite Hlen, length_replicate.
  - intros i Hi. rewrite Hcell, decide_True by done.
    by rewrite lookup_replicate_2.
Qed.

End monad_facts.

(** * The augmenter *)
Section augmenter.
Import NeuralNetwork.

Lemma noise_within x r :
  (0 <= r < 1)%Q →
  ∃ val, noise_val (Fin x) r = Fin val ∧ (Qabs (val - x) <= 1 # 10)%Q.
Proof.
  intros [Hr0 Hr1]. eexists. split; [reflexivity|].
  apply Qabs_Qle_condition. split; lra.
Qed.

Lemma clamp_within val :
  ∃ c, max0 (min1 (Fin val)) = Fin c ∧ (0 <= c <= 1)%Q.
Proof.
  eexists. split; [reflexivity|].
  destruct (Qle_bool 1 val) eqn:H1.
  - simpl. split; lra.
  - assert (val < 1)%Q.
    { apply Qnot_le_lt. intros Hle. apply Qle_bool_iff in Hle. congruence. }
    destruct (Qle_bool val 0) eqn:H0; [split; lra|].
    assert (0 < val)%Q.
    { apply Qnot_le_lt. intros Hle. apply Qle_bool_iff in Hle. congruence. }
    split; lra.
Qed.

(** C6.  For every input vector, [augmentInput] returns exactly ten
    variants.  Variant 0 is the input itself.  Variant 9 has the length of
    the input, and wherever the input holds a number [x], the value [val]
    that the code computes before clamping is within 0.1 of [x], and the
    cell of variant 9 is [val] clamped, a number in [0, 1].  [Math.random]
    is assumed to return numbers in [0, 1). *)
Theorem augmentInput_ensemble (s : State) (inputData : list num) :
  (∀ n, (0 <= random s n < 1)%Q) →
  let vs := (augmentInput inputData s).1 in
  length vs = 10
  ∧ vs !! 0 = Some inputData
  ∧ ∃ noisy, vs !! 9 = Some noisy
      ∧ length noisy = length inputData
      ∧ ∀ i x, inputData !! i = Some (Fin x) →
          ∃ val c,
            noise_val (Fin x) (random s (drawn s + i)) = Fin val
            ∧ (Qabs (val - x) <= 1 # 10)%Q
            ∧ max0 (min1 (Fin val)) = Fin c
            ∧ noisy !! i = Some (Fin c)
            ∧ (0 <= c <= 1)%Q.
Proof.
  intros Hrand.
  destruct (augmentInput_run inputData s) as (noisy & -> & Hlen & Hcell).
  cbn [fst]. split; [|split]; [reflexivity..|].
  exists noisy. split; [reflexivity|]. split; [done|].
  intros i x Hi.
  destruct (noise_within x _ (Hrand (drawn s + i))) as (val & Hval & Habs).
  destruct (clamp_within val) as (c & Hc & Hrange).
  exists val, c. repeat split; try done; try apply Hrange.
  rewrite Hcell by (by eapply lookup_lt_Some).
  unfold noisy_cell. rewrite Hi. cbn [to_cell]. by rewrite Hval, Hc.
Qed.

Lemma augmentInput_ensemble_witness :
  let s := loaded_state (onehot 0) in
  let vs := (augmentInput blank s).1 in
  length vs = 10
  ∧ vs !! 0 = Some blank
  ∧ ∃ noisy, vs !! 9 = Some noisy
      ∧ length noisy = length blank
      ∧ ∀ i x, blank !! i = Some (Fin x) →
          ∃ val c,
            noise_val (Fin x) (random s (drawn s + i)) = Fin val
            ∧ (Qabs (val - x) <= 1 # 10)%Q
            ∧ max0 (min1 (Fin val)) = Fin c
            ∧ noisy !! i = Some (Fin c)
            ∧ (0 <= c <= 1)%Q.
Proof.
  apply (augmentInput_ensemble (loaded_state (onehot 0)) blank).
  intros n. split; vm_compute; [discriminate|reflexivity].
Defined.

(** C7.  For an input vector of 784 cells and the [k]-th offset [(dx, dy)]
    of the list (-1,-1), (0,-1), (1,-1), (-1,0), (1,0), (-1,1), (0,1),
    (1,1), element [k + 1] of the ensemble is the shift by [(dx, dy)]: its
    pixel at [(x, y)] is the input's pixel at [(x + dx, y + dy)] when that
    coordinate is within the grid, and zero otherwise. *)
Theorem augmentInput_shifts (s : State) (inputData : list num)
    (k : nat) (dx dy x y : Z) :
  length inputData = 784 →
  shift_offsets !! k = Some (dx, dy) →
  in_grid x y = true →
  ∃ variant,
    (augmentInput inputData s).1 !! S k = Some variant
    ∧ variant = shift inputData dx dy
    ∧ pixel variant x y =
        if in_grid (x + dx) (y + dy)
        then pixel inputData (x + dx) (y + dy)
        else Some (Fin 0).
Proof.
  intros Hlen Hk Hg.
  destruct (augmentInput_run inputData s) as (noisy & -> & _ & _).
  exists (shift inputData dx dy). split; [|split; [done|]].
  - cbn [fst]. rewrite lookup_cons_ne_0 by done. cbn [Nat.pred].
    rewrite lookup_app_l.
    + by rewrite list_lookup_fmap, Hk.
    + rewrite length_fmap. by eapply lookup_lt_Some.
  - by apply shift_pixel.
Qed.

Lemma augmentInput_shifts_witness :
  ∃ variant,
    (augmentInput white (loaded_state (onehot 0))).1 !! 1 = Some variant
    ∧ variant = shift white (-1) (-1)
    ∧ pixel variant 0 0 =
        if in_grid (0 + -1) (0 + -1)
        then pixel white (0 + -1) (0 + -1)
        else Some (Fin 0).
Proof.
  apply (augmentInput_shifts (loaded_state (onehot 0)) white 0 (-1) (-1) 0 0);
    reflexivity.
Defined.

(** C8 on the code: shift a white image by (1, 0) and back by (-1, 0).
    The cell (0, 0) was not filled with zero by the first shift, and yet
    the round trip leaves zero there, not the original; the cell (27, 0)
    was filled with zero by the first shift, and the round trip restores
    the original there. *)
Lemma shift_round_trip_counterexample :
  let once := shift white 1 0 in
  let back := shift once (-1) 0 in
  (in_grid (0 + 1) (0 + 0) = true
   ∧ pixel once 0 0 = Some (Fin 1)
   ∧ pixel white 0 0 = Some (Fin 1)
   ∧ pixel back 0 0 = Some (Fin 0))
  ∧ (in_grid (27 + 1) (0 + 0) = false
     ∧ pixel once 27 0 = Some (Fin 0)
     ∧ pixel white 27 0 = Some (Fin 1)
     ∧ pixel back 27 0 = Some (Fin 1)).
Proof. by vm_compute. Qed.

(** C8, as amended.  Shifting a vector of 784 cells by [(dx, dy)] and then
    by [(-dx, -dy)] reproduces the original at every grid position [(x, y)]
    whose source for the second shift, [(x - dx, y - dy)], lies within the
    grid; the remaining positions, the border that the second shift
    fills, are zero. *)
Theorem shift_round_trip (v : list num) (dx dy x y : Z) :
  length v = 784 →
  in_grid x y = true →
  pixel (shift (shift v dx dy) (- dx) (- dy)) x y =
    if in_grid (x - dx) (y - dy) then pixel v x y else Some (Fin 0).
Proof.
  intros Hlen Hg.
  rewrite shift_pixel by (by rewrite ?shift_length).
  replace (x + - dx)%Z with (x - dx)%Z by lia.
  replace (y + - dy)%Z with (y - dy)%Z by lia.
  destruct (in_grid (x - dx) (y - dy)) eqn:Hback; [|done].
  rewrite shift_pixel by done.
  replace (x - dx + dx)%Z with x by lia.
  replace (y - dy + dy)%Z with y by lia.
  by rewrite Hg.
Qed.

Lemma shift_round_trip_witness :
  pixel (shift (shift white 1 0) (- 1) (- 0)) 0 0 =
    if in_grid (0 - 1) (0 - 0) then pixel white 0 0 else Some (Fin 0).
Proof. apply (shift_round_trip white 1 0 0 0); reflexivity. Defined.

End augmenter.


(** * The argmax loops *)
Section argmax_facts.
Import NeuralNetwork.

Lemma gt_true v m :
  gt v m = true ↔ ∃ q, v = Some (Fin q) ∧ (m < q)%Q.
Proof.
  unfold gt. split.
  - destruct v as [[q|]|]; try discriminate.
    destruct (q ?= m)%Q eqn:Hc; try discriminate.
    intros _. exists q. split; [done|]. by apply Qgt_alt.
  - intros (q & -> & Hq). apply Qgt_alt in Hq. by rewrite Hq.
Qed.

Lemma gt_false v m q :
  gt v m = false → v = Some (Fin q) → (q <= m)%Q.
Proof.
  intros Hgt ->. apply Qnot_lt_le. intros Hlt.
  assert (gt (Some (Fin q)) m = true) by (apply gt_true; eauto).
  congruence.
Qed.

Lemma argmax_S n output :
  argmax (S n) output = scan_step output (argmax n output) n.
Proof. unfold argmax. by rewrite seq_S, foldl_snoc. Qed.

Lemma argmax_inv output n : scan_inv output n (argmax n output).
Proof.
  induction n as [|n (Hpos & Hmax & Hfirst & Hzero & Hreads)].
  - unfold scan_inv. simpl. repeat split; try done; try lia; try lra.
  - rewrite argmax_S. unfold scan_step.
    destruct (gt (output !! n) (maxProb (argmax n output))) eqn:Hgt.
    + apply gt_true in Hgt as (q & Hq & Hlt). rewrite Hq.
      unfold scan_inv. cbn [maxProb prediction reads val].
      split; [lra|]. split; [|split; [|split]].
      * intros i q' Hi Hq'. destruct (decide (i = n)) as [->|].
        -- rewrite Hq in Hq'. injection Hq' as ->. lra.
        -- assert (q' <= maxProb (argmax n output))%Q
             by (apply (Hmax i); [lia|done]).
           lra.
      * intros _. split; [lia|]. split; [done|].
        intros i q' Hi Hq'.
        assert (q' <= maxProb (argmax n output))%Q by eauto.
        lra.
      * intros Hn. lra.
      * by rewrite Hreads, seq_S.
    + unfold scan_inv. cbn [maxProb prediction reads].
      split; [done|]. split; [|split; [|split]].
      * intros i q' Hi Hq'. destruct (decide (i = n)) as [->|].
        -- by eapply gt_false.
        -- apply (Hmax i); [lia|done].
      * intros Hp. destruct (Hfirst Hp) as (? & ? & ?).
        split; [lia|done].
      * done.
      * by rewrite Hreads, seq_S.
Qed.

Lemma find_winner_inv votes n :
  tally_inv votes n (foldl (tally_step votes) (mkTally 0 0 []) (seq 0 n)).
Proof.
  induction n as [|n (Hmax & Hfirst & Hzero & Hreads)].
  - unfold tally_inv. simpl. repeat split; try done; lia.
  - rewrite seq_S, foldl_snoc. simpl.
    set (t := foldl (tally_step votes) (mkTally 0 0 []) (seq 0 n)) in *.
    unfold tally_step. destruct (votes !! n) as [v|] eqn:Hv.
    + destruct (maxVotes t <? v) eqn:Hlt.
      * apply Nat.ltb_lt in Hlt.
        unfold tally_inv. cbn [maxVotes winner tally_reads].
        split; [|split; [|split]].
        -- intros i v' Hi Hv'. destruct (decide (i = n)) as [->|].
           ++ rewrite Hv in Hv'. injection Hv' as ->. lia.
           ++ assert (v' ≤ maxVotes t) by (apply (Hmax i); [lia|done]). lia.
        -- intros _. split; [lia|]. split; [done|].
           intros i v' Hi Hv'.
           assert (v' ≤ maxVotes t) by eauto. lia.
        -- lia.
        -- by rewrite Hreads, seq_S.
      * apply Nat.ltb_ge in Hlt.
        unfold tally_inv. cbn [maxVotes winner tally_reads].
        split; [|split; [|split]].
        -- intros i v' Hi Hv'. destruct (decide (i = n)) as [->|].
           ++ rewrite Hv in Hv'. injection Hv' as ->. lia.
           ++ apply (Hmax i); [lia|done].
        -- intros Hp. destruct (Hfirst Hp) as (? & ? & ?).
           split; [lia|done].
        -- done.
        -- by rewrite Hreads, seq_S.
    + unfold tally_inv. cbn [maxVotes winner tally_reads].
      split; [|split; [|split]].
      * intros i v' Hi Hv'. destruct (decide (i = n)) as [->|].
        -- congruence.
        -- apply (Hmax i); [lia|done].
      * intros Hp. destruct (Hfirst Hp) as (? & ? & ?).
        split; [lia|done].
      * done.
      * by rewrite Hreads, seq_S.
Qed.

Lemma find_winner_tally votes : tally_inv votes 100 (find_winner votes).
Proof. exact (find_winner_inv votes 100). Qed.

End argmax_facts.

(** * Voting and prediction in the state monad *)
Section voting_facts.
Import NeuralNetwork.

Lemma argmax_below_length n output :
  0 < length output → prediction (argmax n output) < length output.
Proof.
  intros Hlen.
  destruct (argmax_inv output n) as (_ & _ & Hfirst & Hzero & _).
  destruct (Qlt_le_dec 0 (maxProb (argmax n output))) as [Hp|Hz].
  - destruct (Hfirst Hp) as (_ & Hat & _). by eapply lookup_lt_Some.
  - rewrite Hzero; [done|]. by apply Qle_not_lt.
Qed.

Lemma argmax_below_bound n output :
  0 < n → prediction (argmax n output) < n.
Proof.
  intros Hn.
  destruct (argmax_inv output n) as (_ & _ & Hfirst & Hzero & _).
  destruct (Qlt_le_dec 0 (maxProb (argmax n output))) as [Hp|Hz].
  - by destruct (Hfirst Hp) as (? & _).
  - rewrite Hzero; [done|]. by apply Qle_not_lt.
Qed.

Lemma sum_list_alter_S p (l : list nat) :
  sum_list (alter S p l) ≤ S (sum_list l).
Proof.
  revert p. induction l as [|a l IH]; intros [|p]; simpl; try lia.
  specialize (IH p). unfold alter in IH. lia.
Qed.

Lemma log_calls_nil s : log_calls [] s = s.
Proof. destruct s. unfold log_calls. simpl. by rewrite app_nil_r. Qed.

Lemma log_calls_cons d l s :
  log_calls l (log_calls [d] s) = log_calls (d :: l) s.
Proof. unfold log_calls. simpl. by rewrite <- app_assoc. Qed.

Lemma vote_step_run votes data s :
  vote_step votes data s =
    match window_nn s with
    | Some nn =>
        (alter S (prediction (argmax 100 (nn (calls s) data))) votes,
         log_calls [data] s)
    | None => (votes, s)
    end.
Proof.
  unfold vote_step, mbind, M_bind, get. by destruct (window_nn s).
Qed.

(** The [forEach] of [verify], from any tally [votes]. *)
Lemma vote_loop vs : ∀ votes s,
  ∃ votes',
    foldM vote_step votes vs s =
      (votes', match window_nn s with
               | Some _ => log_calls vs s
               | None => s
               end)
    ∧ length votes' = length votes
    ∧ sum_list votes' ≤ sum_list votes + length vs
    ∧ ((∀ nn hist x, window_nn s = Some nn → length (nn hist x) = 10) →
         ∀ i, 10 ≤ i → votes' !! i = votes !! i)
    ∧ (window_nn s = None → votes' = votes).
Proof.
  induction vs as [|d vs IH]; intros votes s.
  - exists votes. cbn [foldM]. unfold mret, M_ret.
    rewrite log_calls_nil. destruct (window_nn s); (split; [done|]);
      repeat split; try done; simpl; lia.
  - cbn [foldM]. unfold mbind, M_bind. rewrite vote_step_run.
    destruct (window_nn s) as [nn|] eqn:Hnn.
    + set (p := prediction (argmax 100 (nn (calls s) d))).
      destruct (IH (alter S p votes) (log_calls [d] s))
        as (votes' & Hrun & Hlen & Hsum & Hhigh & _).
      exists votes'. cbn [log_calls window_nn] in Hrun.
      rewrite Hnn in Hrun. rewrite Hrun, log_calls_cons.
      split; [done|]. split; [by rewrite Hlen, length_alter|].
      split; [|split; [|done]].
      * pose proof (sum_list_alter_S p votes). simpl. lia.
      * intros Hten i Hi. rewrite Hhigh; [|by cbn; rewrite Hnn|done].
        apply list_lookup_alter_ne.
        assert (p < length (nn (calls s) d)).
        { apply argmax_below_length. rewrite (Hten nn) by done. lia. }
        rewrite (Hten nn) in * by done. lia.
    + destruct (IH votes s) as (votes' & Hrun & Hlen & Hsum & Hhigh & Hsame).
      rewrite Hnn in Hrun. exists votes'. rewrite Hrun.
      split; [done|]. split; [done|]. split; [simpl; lia|].
      split; [|by intros _; apply Hsame].
      intros _. rewrite (Hsame Hnn). done.
Qed.

Lemma hidden_loop m init s n :
  ∃ r, foldM (hidden_step m) init (seq 0 n) s = (r, advance n s).
Proof.
  induction n as [|n (r & Hrun)].
  - exists init. by rewrite advance_0.
  - eexists. rewrite seq_S, foldM_snoc, Hrun. cbn [Nat.add].
    unfold hidden_step, mbind, M_bind, mret, M_ret.
    rewrite <- advance_S. unfold Math_random. cbn [snd]. reflexivity.
Qed.

Lemma predict_unavailable v s :
  isLoaded s = false ∨ window_nn s = None →
  predict v s = (mkResult 0 0 uniform (activations s) false, s).
Proof.
  unfold predict, mbind, M_bind, get.
  intros [H|H]; rewrite H; [done|]. by destruct (isLoaded s).
Qed.

Lemma predict_ready v s nn :
  isLoaded s = true → window_nn s = Some nn →
  ∃ hid,
    let output := nn (calls s) v in
    let sc := argmax 10 output in
    let acts := mkActivations v hid output in
    predict v s =
      (mkResult (prediction sc) (maxProb sc) output acts false,
       mkState true acts (Some nn) (random s) (drawn s + 64)
               (calls s ++ [v])).
Proof.
  intros Hl Hnn.
  set (s1 := mkState (isLoaded s)
               (mkActivations v (act_hidden (activations s))
                              (act_output (activations s)))
               (window_nn s) (random s) (drawn s) (calls s ++ [v])).
  destruct (hidden_loop (maxProb (argmax 10 (nn (calls s) v)))
              (replicate 64 (Fin 0)) s1 64) as (hid & Hhid).
  exists hid. unfold predict, mbind, M_bind, get.
  rewrite Hl, Hnn. unfold set_activations at 1, call_nn.
  cbn [isLoaded activations window_nn random drawn calls].
  fold s1. rewrite Hhid. unfold set_activations, mret, M_ret, advance.
  subst s1. cbn [isLoaded activations window_nn random drawn calls
                 act_input act_hidden act_output].
  by rewrite Hl, Hnn.
Qed.

Lemma verify_unfold v s :
  verify v s =
    let '(vs, s1) := augmentInput v s in
    let '(votes, s2) := cast_votes vs s1 in
    let '(finalResult, s3) := predict v s2 in
    let t := find_winner votes in
    (mkResult (winner t)
              (inject_Z (Z.of_nat (maxVotes t))
               / inject_Z (Z.of_nat (length vs)))
              (res_probabilities finalResult)
              (res_activations finalResult)
              true, s3).
Proof.
  unfold verify, mbind, M_bind, mret, M_ret.
  destruct (augmentInput v s) as [vs s1].
  destruct (cast_votes vs s1) as [votes s2].
  by destruct (predict v s2) as [fr s3].
Qed.

End voting_facts.

(** * The voting aggregator and the single-shot predictor *)
Section aggregator.
Import NeuralNetwork.

Lemma find_winner_at votes :
  0 < length votes →
  votes !! winner (find_winner votes) = Some (maxVotes (find_winner votes)).
Proof.
  intros Hlen.
  destruct (find_winner_tally votes) as (Hmax & Hfirst & Hzero & _).
  destruct (decide (0 < maxVotes (find_winner votes))) as [Hp|Hz].
  - by destruct (Hfirst Hp) as (_ & ? & _).
  - assert (Hmv : maxVotes (find_winner votes) = 0) by lia.
    rewrite (Hzero Hmv), Hmv.
    destruct (lookup_lt_is_Some_2 votes 0 Hlen) as [v Hv].
    rewrite Hv. f_equal.
    assert (v ≤ maxVotes (find_winner votes)) by (apply (Hmax 0); [lia|done]).
    lia.
Qed.

Lemma lookup_le_sum (votes : list nat) i v :
  votes !! i = Some v → v ≤ sum_list votes.
Proof.
  intros Hv. apply (sum_list_with_in v id). by eapply list_elem_of_lookup_2.
Qed.

Lemma ratio_within n :
  n ≤ 10 →
  (0 <= inject_Z (Z.of_nat n) / inject_Z (Z.of_nat 10) <= 1)%Q.
Proof.
  intros Hn. unfold Qle, Qdiv, Qmult, Qinv, inject_Z. simpl. lia.
Qed.

(** The tally of [verify] and what the run leaves behind. *)
Lemma verify_run v s :
  ∃ vs votes finalResult s3,
    augmentInput v s = (vs, advance (length v) s)
    ∧ length vs = 10
    ∧ cast_votes vs (advance (length v) s) =
        (votes, match window_nn s with
                | Some _ => log_calls vs (advance (length v) s)
                | None => advance (length v) s
                end)
    ∧ length votes = 100
    ∧ sum_list votes ≤ 10
    ∧ ((∀ nn hist x, window_nn s = Some nn → length (nn hist x) = 10) →
         ∀ i, 10 ≤ i → i < 100 → votes !! i = Some 0)
    ∧ (window_nn s = None → votes = replicate 100 0)
    ∧ predict v (match window_nn s with
                 | Some _ => log_calls vs (advance (length v) s)
                 | None => advance (length v) s
                 end) = (finalResult, s3)
    ∧ votes_of v s = votes
    ∧ verify v s =
        (mkResult (winner (find_winner votes))
                  (inject_Z (Z.of_nat (maxVotes (find_winner votes)))
                   / inject_Z (Z.of_nat 10))
                  (res_probabilities finalResult)
                  (res_activations finalResult)
                  true, s3).
Proof.
  destruct (augmentInput_run v s) as (noisy & Haug & _ & _).
  set (vs := v :: ((λ d, shift v d.1 d.2) <$> shift_offsets) ++ [noisy]) in *.
  assert (Hvs : length vs = 10) by reflexivity.
  destruct (vote_loop vs (replicate 100 0) (advance (length v) s))
    as (votes & Hrun & Hlen & Hsum & Hhigh & Hsame).
  change (window_nn (advance (length v) s)) with (window_nn s) in *.
  rewrite length_replicate in Hlen.
  rewrite sum_list_replicate, Hvs in Hsum.
  set (s2 := match window_nn s with
             | Some _ => log_calls vs (advance (length v) s)
             | None => advance (length v) s
             end) in *.
  destruct (predict v s2) as [fr s3] eqn:Hpred.
  exists vs, votes, fr, s3.
  split; [done|]. split; [done|]. split; [done|]. split; [done|].
  split; [lia|]. split.
  { intros Hten i Hi Hi'. rewrite Hhigh by done.
    by apply lookup_replicate_2. }
  split; [done|]. split; [done|]. split.
  { unfold votes_of. rewrite Haug. unfold cast_votes in *.
    by rewrite Hrun. }
  rewrite verify_unfold, Haug. unfold cast_votes in *.
  rewrite Hrun, Hpred, Hvs. done.
Qed.

(** C4.  For every input vector and every state of the model object (so
    every classifier, loaded or not), the confidence that [verify] returns
    is the tally of the winning class divided by 10, and lies in [0, 1]. *)
Theorem verify_confidence (s : State) (inputData : list num) :
  let r := (verify inputData s).1 in
  ∃ n, votes_of inputData s !! res_prediction r = Some n
     ∧ res_confidence r = (inject_Z (Z.of_nat n) / 10)%Q
     ∧ (0 <= res_confidence r <= 1)%Q.
Proof.
  destruct (verify_run inputData s)
    as (vs & votes & fr & s3 & _ & _ & _ & Hlen & Hsum & _ & _ & _
        & -> & ->).
  cbn [fst res_prediction res_confidence].
  exists (maxVotes (find_winner votes)).
  assert (Hat := find_winner_at votes ltac:(lia)).
  split; [done|]. split; [done|].
  apply ratio_within. apply lookup_le_sum in Hat. lia.
Qed.

(** C10.  When [window.nn] answers every query with exactly ten entries,
    the class that [verify] returns and the class that [predict] returns
    are both below 10, and the tally slots 10 to 99 are all still zero
    when the votes are counted. *)
Theorem prediction_is_a_digit (s : State) (inputData : list num) :
  (∀ nn hist x, window_nn s = Some nn → length (nn hist x) = 10) →
  res_prediction (verify inputData s).1 < 10
  ∧ res_prediction (predict inputData s).1 < 10
  ∧ ∀ i, 10 ≤ i → i < 100 → votes_of inputData s !! i = Some 0.
Proof.
  intros Hten.
  destruct (verify_run inputData s)
    as (vs & votes & fr & s3 & _ & _ & _ & Hlen & _ & Hhigh & _ & _
        & -> & ->).
  specialize (Hhigh Hten). cbn [fst res_prediction].
  split; [|split; [|done]].
  - destruct (find_winner_tally votes) as (_ & Hfirst & Hzero & _).
    destruct (decide (0 < maxVotes (find_winner votes))) as [Hp|Hz].
    + destruct (Hfirst Hp) as (Hlt & Hat & _).
      destruct (decide (winner (find_winner votes) < 10)); [done|].
      rewrite Hhigh in Hat by lia. injection Hat as Hat. lia.
    + rewrite Hzero; lia.
  - destruct (isLoaded s) eqn:Hl; [destruct (window_nn s) as [nn|] eqn:Hnn|].
    + destruct (predict_ready inputData s nn Hl Hnn) as (hid & ->).
      cbn [fst res_prediction]. apply argmax_below_bound. lia.
    + rewrite predict_unavailable by auto. simpl. lia.
    + rewrite predict_unavailable by auto. simpl. lia.
Qed.

Lemma prediction_is_a_digit_witness :
  res_prediction (verify blank (loaded_state (onehot 3))).1 < 10
  ∧ res_prediction (predict blank (loaded_state (onehot 3))).1 < 10
  ∧ ∀ i, 10 ≤ i → i < 100 →
      votes_of blank (loaded_state (onehot 3)) !! i = Some 0.
Proof.
  apply (prediction_is_a_digit (loaded_state (onehot 3)) blank).
  intros nn hist x Hnn. injection Hnn as <-. reflexivity.
Defined.

(** Two scenarios: a unanimous ensemble, and a six-to-four majority. *)
Example verify_unanimous :
  let r := (verify blank (loaded_state (onehot 0))).1 in
  res_prediction r = 0 ∧ (res_confidence r == 1)%Q.
Proof. by vm_compute. Qed.

Example verify_six_to_four :
  let r := (verify blank (loaded_state six_then_four)).1 in
  res_prediction r = 3 ∧ (res_confidence r == 6 # 10)%Q.
Proof. by vm_compute. Qed.

(** The first index that holds the maximum wins: per-variant loop. *)
Lemma argmax_first n d i m :
  Forall (λ v, ∃ q, v = Fin q ∧ (0 <= q)%Q) d →
  i < n →
  d !! i = Some (Fin m) →
  (∀ k q, d !! k = Some (Fin q) → (q <= m)%Q) →
  (∀ k q, k < i → d !! k = Some (Fin q) → (q < m)%Q) →
  prediction (argmax n d) = i.
Proof.
  intros Hnonneg Hi Hat Hle Hlt.
  destruct (argmax_inv d n) as (Hpos & Hmax & Hfirst & Hzero & _).
  set (sc := argmax n d) in *.
  assert (Hm : (m <= maxProb sc)%Q) by (by apply (Hmax i)).
  destruct (Qlt_le_dec 0 (maxProb sc)) as [Hp|Hz].
  - destruct (Hfirst Hp) as (_ & Hpred & Hbefore).
    assert (maxProb sc <= m)%Q by (by apply (Hle (prediction sc))).
    destruct (Nat.lt_trichotomy (prediction sc) i) as [Hc|[Hc|Hc]]; [|done|].
    + pose proof (Hlt _ _ Hc Hpred). lra.
    + pose proof (Hbefore _ _ Hc Hat). lra.
  - rewrite Hzero by (by apply Qle_not_lt).
    destruct i as [|i]; [done|exfalso].
    destruct (lookup_lt_is_Some_2 d 0) as [v Hv].
    { apply lookup_lt_Some in Hat. lia. }
    destruct (Forall_lookup_1 _ _ _ _ Hnonneg Hv) as (q & -> & Hq).
    assert (q < m)%Q by (apply (Hlt 0); [lia|done]).
    lra.
Qed.

(** The first index that holds the maximum wins: tally loop. *)
Lemma find_winner_first votes a n :
  a < 100 →
  votes !! a = Some n →
  (∀ k v, votes !! k = Some v → v ≤ n) →
  (∀ k v, k < a → votes !! k = Some v → v < n) →
  winner (find_winner votes) = a.
Proof.
  intros Ha Hat Hle Hlt.
  destruct (find_winner_tally votes) as (Hmax & Hfirst & Hzero & _).
  set (t := find_winner votes) in *.
  assert (Hn : n ≤ maxVotes t) by (by apply (Hmax a)).
  destruct (decide (0 < maxVotes t)) as [Hp|Hz].
  - destruct (Hfirst Hp) as (_ & Hwin & Hbefore).
    assert (maxVotes t ≤ n) by (by apply (Hle (winner t))).
    destruct (Nat.lt_trichotomy (winner t) a) as [Hc|[Hc|Hc]]; [|done|].
    + pose proof (Hlt _ _ Hc Hwin). lia.
    + pose proof (Hbefore _ _ Hc Hat). lia.
  - rewrite Hzero by lia.
    destruct a as [|a]; [done|exfalso].
    destruct (lookup_lt_is_Some_2 votes 0) as [v Hv].
    { apply lookup_lt_Some in Hat. lia. }
    assert (v < n) by (apply (Hlt 0); [lia|done]).
    lia.
Qed.

(** C5.  Take a class distribution [d] (ten scores, none negative) whose
    maximum [m] is held at [i], and first there, and again at a later
    index [j]: the argmax loop of [verify] (and the one of [predict])
    returns [i], not [j].  Take a vote tally whose maximum [n] is held at
    [a], and first there, and again at a later class [b]: the final loop
    of [verify] returns [a], not [b].  A distribution of ten zeros yields
    class 0. *)
Theorem argmax_tie_break (d : list num) (i j : nat) (m : Q)
    (votes : list nat) (a b n : nat) :
  ClassDistribution d →
  i < j → d !! i = Some (Fin m) → d !! j = Some (Fin m) →
  (∀ k q, d !! k = Some (Fin q) → (q <= m)%Q) →
  (∀ k q, k < i → d !! k = Some (Fin q) → (q < m)%Q) →
  length votes = 100 →
  a < b → votes !! a = Some n → votes !! b = Some n →
  (∀ k v, votes !! k = Some v → v ≤ n) →
  (∀ k v, k < a → votes !! k = Some v → v < n) →
  prediction (argmax 100 d) = i ∧ prediction (argmax 100 d) ≠ j
  ∧ prediction (argmax 10 d) = i
  ∧ winner (find_winner votes) = a ∧ winner (find_winner votes) ≠ b
  ∧ prediction (argmax 100 (replicate 10 (Fin 0))) = 0.
Proof.
  intros [Hlen Hnonneg] Hij Hi Hj Hle Hlt Hvotes Hab Ha Hb Hvle Hvlt.
  assert (i < 10) by (apply lookup_lt_Some in Hi; lia).
  assert (a < 100) by (apply lookup_lt_Some in Ha; lia).
  rewrite (argmax_first 100 d i m), (argmax_first 10 d i m) by (done || lia).
  rewrite (find_winner_first votes a n) by done.
  repeat split; lia.
Qed.

Lemma argmax_tie_break_witness :
  prediction (argmax 100 tied_scores) = 1
  ∧ prediction (argmax 100 tied_scores) ≠ 2
  ∧ prediction (argmax 10 tied_scores) = 1
  ∧ winner (find_winner tied_votes) = 3
  ∧ winner (find_winner tied_votes) ≠ 7
  ∧ prediction (argmax 100 (replicate 10 (Fin 0))) = 0.
Proof.
  assert (Hle : Forall (λ v, ∃ q, v = Fin q ∧ (0 <= q <= 1 # 2)%Q)
                       tied_scores).
  { repeat (constructor; [eexists; split; [reflexivity|split; lra]|]).
    constructor. }
  assert (Hvotes : Forall (λ v, v ≤ 5) tied_votes).
  { apply Forall_app. split; [repeat constructor; lia|].
    apply Forall_replicate. lia. }
  apply (argmax_tie_break tied_scores 1 2 (1 # 2) tied_votes 3 7 5).
  - split; [reflexivity|].
    eapply Forall_impl; [exact Hle|]. intros v (q & -> & Hq & _). eauto.
  - lia.
  - reflexivity.
  - reflexivity.
  - intros k q Hk.
    destruct (Forall_lookup_1 _ _ _ _ Hle Hk) as (q' & Hq' & _ & Hhi).
    by injection Hq' as ->.
  - intros k q Hk Hq.
    assert (k = 0) as -> by lia. injection Hq as <-. lra.
  - reflexivity.
  - lia.
  - reflexivity.
  - reflexivity.
  - intros k v Hk. exact (Forall_lookup_1 _ _ _ _ Hvotes Hk).
  - intros k v Hk Hv.
    assert (k = 0 ∨ k = 1 ∨ k = 2) as [-> | [-> | ->]] by lia;
      injection Hv as <-; lia.
Defined.

(** C1 on the code.  When [window.nn] answers with ten entries, the loop
    that [verify] runs over the answer subscripts it at every index from 0
    to 99: the indices 10 to 99 are read although the answer has nothing
    there.  The final loop runs over the hundred slots of the tally.  The
    loop of [predict] stops at 10. *)
Theorem verify_scans_a_hundred (s : State) (nn : Classifier)
    (votes : list nat) (data : list num) :
  window_nn s = Some nn →
  length (nn (calls s) data) = 10 →
  let output := nn (calls s) data in
  let sc := argmax 100 output in
  (vote_step votes data s).1 = alter S (prediction sc) votes
  ∧ reads sc = seq 0 100
  ∧ (∀ i, 10 ≤ i → i < 100 → i ∈ reads sc ∧ output !! i = None)
  ∧ (∀ tally, tally_reads (find_winner tally) = seq 0 100)
  ∧ reads (argmax 10 output) = seq 0 10.
Proof.
  intros Hnn Hlen output sc.
  assert (Hreads : reads sc = seq 0 100)
    by (by destruct (argmax_inv output 100) as (_ & _ & _ & _ & ?)).
  split; [by rewrite vote_step_run, Hnn|]. split; [done|].
  split; [|split].
  - intros i Hlo Hhi. split.
    + rewrite Hreads. apply elem_of_seq. lia.
    + apply lookup_ge_None_2. subst output. lia.
  - intros tally. by destruct (find_winner_tally tally) as (_ & _ & _ & ?).
  - by destruct (argmax_inv output 10) as (_ & _ & _ & _ & ?).
Qed.

Lemma verify_scans_a_hundred_witness :
  let s := loaded_state (onehot 0) in
  let output := onehot 0 (calls s) blank in
  let sc := argmax 100 output in
  (vote_step (replicate 100 0) blank s).1
    = alter S (prediction sc) (replicate 100 0)
  ∧ reads sc = seq 0 100
  ∧ (∀ i, 10 ≤ i → i < 100 → i ∈ reads sc ∧ output !! i = None)
  ∧ (∀ tally, tally_reads (find_winner tally) = seq 0 100)
  ∧ reads (argmax 10 output) = seq 0 10.
Proof.
  apply (verify_scans_a_hundred (loaded_state (onehot 0)) (onehot 0)
           (replicate 100 0) blank); reflexivity.
Defined.

(** Case analysis on [window.nn] being there. *)
Ltac case_nn s :=
  let Hw := fresh "Hw" in
  destruct (window_nn s) eqn:Hw; cbn;
  rewrite ?Hw, ?app_nil_r, <- ?app_assoc.

(** What one call of [predict] does to the state. *)
Lemma predict_effects v s :
  let s' := (predict v s).2 in
  calls s' = calls s ++ (if ready s then [v] else [])
  ∧ isLoaded s' = isLoaded s
  ∧ window_nn s' = window_nn s
  ∧ random s' = random s
  ∧ drawn s' = drawn s + (if ready s then 64 else 0)
  ∧ (ready s = false → activations s' = activations s)
  ∧ (ready s = true → act_input (activations s') = v).
Proof.
  unfold ready.
  destruct (isLoaded s) eqn:Hl; [destruct (window_nn s) as [nn|] eqn:Hnn|].
  - destruct (predict_ready v s nn Hl Hnn) as (hid & ->).
    cbn. by rewrite ?Hl, ?Hnn.
  - rewrite predict_unavailable by auto. cbn.
    by rewrite app_nil_r, Nat.add_0_r, ?Hl, ?Hnn.
  - rewrite predict_unavailable by auto. cbn.
    by rewrite app_nil_r, Nat.add_0_r, ?Hl.
Qed.

(** C2 on the code: with no classifier, [verify] returns a result, the
    uniform distribution in it. *)
Lemma unavailable_counterexample :
  verify blank unloaded_state =
    (mkResult 0 (0 # 10) uniform fresh_activations true,
     advance 784 unloaded_state)
  ∧ predict blank unloaded_state =
    (mkResult 0 0 uniform fresh_activations false, unloaded_state).
Proof. split; vm_compute; reflexivity. Qed.

(** C2, as amended.  When the model object is not ready ([isLoaded] is
    false or [window.nn] is missing), [predict] returns class 0 with
    confidence 0 and the uniform distribution of ten times 0.1, and leaves
    the state alone; [verify] returns too, with the same uniform
    distribution, the untouched activations and [isVerified] set; when
    [window.nn] is missing, the class [verify] returns is 0, its confidence
    is 0, and the classifier is not called. *)
Theorem unavailable_default (s : State) (inputData : list num) :
  isLoaded s = false ∨ window_nn s = None →
  predict inputData s = (mkResult 0 0 uniform (activations s) false, s)
  ∧ res_probabilities (verify inputData s).1 = uniform
  ∧ res_isVerified (verify inputData s).1 = true
  ∧ res_activations (verify inputData s).1 = activations s
  ∧ (window_nn s = None →
       res_prediction (verify inputData s).1 = 0
       ∧ (res_confidence (verify inputData s).1 == 0)%Q
       ∧ calls (verify inputData s).2 = calls s).
Proof.
  intros Hun. split; [by apply predict_unavailable|].
  destruct (verify_run inputData s)
    as (vs & votes & fr & s3 & _ & _ & _ & _ & _ & _ & Hsame & Hpred
        & _ & ->).
  rewrite predict_unavailable in Hpred.
  2: { destruct Hun as [Hl|Hn]; [left|right];
       destruct (window_nn s) eqn:Hw; cbn; congruence. }
  injection Hpred as <- <-. cbn [fst snd res_probabilities res_isVerified
    res_activations res_prediction res_confidence].
  split; [done|]. split; [done|]. split.
  { by destruct (window_nn s). }
  intros Hnone. rewrite (Hsame Hnone), Hnone. by vm_compute.
Qed.

Lemma unavailable_default_witness :
  predict blank unloaded_state
    = (mkResult 0 0 uniform (activations unloaded_state) false,
       unloaded_state)
  ∧ res_probabilities (verify blank unloaded_state).1 = uniform
  ∧ res_isVerified (verify blank unloaded_state).1 = true
  ∧ res_activations (verify blank unloaded_state).1
    = activations unloaded_state
  ∧ (window_nn unloaded_state = None →
       res_prediction (verify blank unloaded_state).1 = 0
       ∧ (res_confidence (verify blank unloaded_state).1 == 0)%Q
       ∧ calls (verify blank unloaded_state).2 = calls unloaded_state).
Proof.
  apply (unavailable_default unloaded_state blank). left. reflexivity.
Defined.

(** C3 on the code: a ready model object sees eleven classifier calls per
    [verify], which also redraws the activations and uses up 848 random
    numbers; a model object that is not ready sees none per [predict]. *)
Lemma classifier_calls_counterexample :
  length (calls (verify blank (loaded_state (onehot 0))).2) = 11
  ∧ drawn (verify blank (loaded_state (onehot 0))).2 = 848
  ∧ act_output (activations (verify blank (loaded_state (onehot 0))).2)
    ≠ act_output (activations (loaded_state (onehot 0)))
  ∧ length (calls (predict blank unloaded_state).2) = 0.
Proof.
  split; [by vm_compute|]. split; [by vm_compute|].
  split; [|by vm_compute].
  vm_compute. discriminate.
Qed.

(** C3, as amended.  [predict] calls the classifier once, on the input,
    when the model object is ready, and not at all otherwise.  [verify]
    calls it on each of the ten variants when [window.nn] is there, and
    once more, on the input, through its final [predict], when the model
    object is ready: eleven calls for a ready object.  Besides, [verify]
    draws one random number per input cell and what its final [predict]
    draws (64 when ready), and that [predict] replaces the activations
    when ready; [isLoaded], [window.nn] and the random source are left
    alone. *)
Theorem classifier_calls (s : State) (inputData : list num) :
  let variations := (augmentInput inputData s).1 in
  let s' := (verify inputData s).2 in
  calls (predict inputData s).2
    = calls s ++ (if ready s then [inputData] else [])
  ∧ calls s'
    = calls s
      ++ match window_nn s with Some _ => variations | None => [] end
      ++ (if ready s then [inputData] else [])
  ∧ length variations = 10
  ∧ isLoaded s' = isLoaded s
  ∧ window_nn s' = window_nn s
  ∧ random s' = random s
  ∧ drawn s' = drawn s + length inputData + (if ready s then 64 else 0)
  ∧ (ready s = false → activations s' = activations s)
  ∧ (ready s = true → act_input (activations s') = inputData).
Proof.
  split; [by destruct (predict_effects inputData s) as (? & _)|].
  destruct (verify_run inputData s)
    as (vs & votes & fr & s3 & -> & Hvs & _ & _ & _ & _ & _ & Hpred
        & _ & ->).
  cbn [fst snd].
  match type of Hpred with predict _ ?s2 = _ =>
    pose proof (predict_effects inputData s2) as Heff;
    assert (Hready : ready s2 = ready s)
      by (unfold ready; destruct (window_nn s) eqn:Hw; cbn; by rewrite ?Hw)
  end.
  rewrite Hpred, Hready in Heff. cbn [snd] in Heff.
  destruct Heff as (Hc & Hl & Hn & Hr & Hd & Ha & Hi).
  rewrite Hc, Hl, Hn, Hr, Hd.
  split; [by case_nn s|]. split; [done|].
  split; [by case_nn s|]. split; [by case_nn s|].
  split; [by case_nn s|]. split; [by case_nn s|].
  split; [|done].
  intros Hf. rewrite (Ha Hf). by case_nn s.
Qed.

End aggregator.


(** * The normaliser *)
Section normaliser.
Import App.

Lemma cell_edge_floor gs cs k :
  0 < gs →
  cell_edge (inject_Z (Z.of_nat cs) / inject_Z (Z.of_nat gs)) k
  = edge gs cs k.
Proof.
  intros Hgs. unfold cell_edge, edge.
  destruct (Z.of_nat gs) as [|p|p] eqn:Hp; try lia.
  unfold Qdiv, Qinv, Qmult, Qfloor, inject_Z. simpl.
  f_equal; lia.
Qed.

Lemma edge_step gs cs k :
  0 < gs → gs ≤ cs → (edge gs cs k + 1 ≤ edge gs cs (k + 1))%Z.
Proof.
  intros Hgs Hcs. unfold edge.
  rewrite <- (Z.div_add (Z.of_nat k * Z.of_nat cs) 1 (Z.of_nat gs)) by lia.
  apply Z.div_le_mono; lia.
Qed.

Lemma edge_nonneg gs cs k : (0 ≤ edge gs cs k)%Z.
Proof.
  unfold edge. destruct gs as [|gs].
  - by rewrite Z.div_0_r.
  - apply Z.div_pos; lia.
Qed.

Lemma edge_top gs cs k : 0 < gs → k ≤ gs → (edge gs cs k ≤ Z.of_nat cs)%Z.
Proof.
  intros Hgs Hk. unfold edge.
  rewrite <- (Z.div_mul (Z.of_nat cs) (Z.of_nat gs)) at 2 by lia.
  apply Z.div_le_mono; nia.
Qed.

Lemma span_bounds gs cs k p :
  0 < gs → k < gs → p ∈ span gs cs k → (0 ≤ p < Z.of_nat cs)%Z.
Proof.
  intros Hgs Hk [Hlo Hhi]%elem_of_seqZ.
  pose proof (edge_nonneg gs cs k).
  pose proof (edge_top gs cs (k + 1) Hgs). lia.
Qed.

Lemma span_length gs cs k :
  0 < gs → gs ≤ cs → 0 < length (span gs cs k).
Proof.
  intros Hgs Hcs. unfold span. rewrite length_seqZ.
  pose proof (edge_step gs cs k Hgs Hcs). lia.
Qed.

(** A pixel index within the buffer. *)
Lemma pixel_in_buffer cs (data : list Byte.byte) px py :
  length data = 4 * cs * cs →
  (0 ≤ px < Z.of_nat cs)%Z → (0 ≤ py < Z.of_nat cs)%Z →
  data_at data ((py * Z.of_nat cs + px) * 4)
  = Fin (inject_Z (Z.of_nat (red cs data px py))).
Proof.
  intros Hlen Hpx Hpy. unfold data_at, red.
  assert (Hidx : (0 ≤ (py * Z.of_nat cs + px) * 4)%Z) by nia.
  rewrite (proj2 (Z.ltb_ge _ _) Hidx).
  destruct (lookup_lt_is_Some_2 data
              (Z.to_nat ((py * Z.of_nat cs + px) * 4))) as [b ->]; [nia|].
  by rewrite N_nat_Z.
Qed.

Lemma Qplus_inject_Z a b :
  (inject_Z a + inject_Z b)%Q = inject_Z (a + b).
Proof. unfold Qplus, inject_Z. simpl. f_equal. lia. Qed.

(** The inner pixel loop: one row of a cell. *)
Lemma pixel_row cs (data : list Byte.byte) py pxs : ∀ a t,
  length data = 4 * cs * cs →
  (0 ≤ py < Z.of_nat cs)%Z →
  Forall (λ px, (0 ≤ px < Z.of_nat cs)%Z) pxs →
  sum a = Fin (inject_Z (Z.of_nat t)) →
  foldl (pixel_step cs data py) a pxs =
    mkAcc (Fin (inject_Z (Z.of_nat
                  (t + sum_list_with (λ px, red cs data px py) pxs))))
          (count a + length pxs).
Proof.
  induction pxs as [|px pxs IH]; intros a t Hlen Hpy Hpxs Hsum.
  - destruct a as [sm ct]. simpl in *. rewrite !Nat.add_0_r. by subst.
  - apply Forall_cons in Hpxs as [Hpx Hpxs]. cbn [foldl].
    rewrite (IH _ (t + red cs data px py)); [|done..|].
    + cbn [count pixel_step sum_list_with length]. f_equal; [|lia].
      do 3 f_equal. lia.
    + cbn [pixel_step sum]. rewrite Hsum, pixel_in_buffer by done.
      cbn [add]. by rewrite Qplus_inject_Z, <- Nat2Z.inj_add.
Qed.

(** The outer pixel loop: the rows of a cell. *)
Lemma pixel_rows cs (data : list Byte.byte) pxs pys : ∀ a t,
  length data = 4 * cs * cs →
  Forall (λ px, (0 ≤ px < Z.of_nat cs)%Z) pxs →
  Forall (λ py, (0 ≤ py < Z.of_nat cs)%Z) pys →
  sum a = Fin (inject_Z (Z.of_nat t)) →
  foldl (λ a py, foldl (pixel_step cs data py) a pxs) a pys =
    mkAcc (Fin (inject_Z (Z.of_nat
                  (t + sum_list_with
                         (λ py, sum_list_with (λ px, red cs data px py) pxs)
                         pys))))
          (count a + length pys * length pxs).
Proof.
  induction pys as [|py pys IH]; intros a t Hlen Hpxs Hpys Hsum.
  - destruct a as [sm ct]. simpl in *. rewrite !Nat.add_0_r. by subst.
  - apply Forall_cons in Hpys as [Hpy Hpys]. cbn [foldl].
    rewrite (pixel_row cs data py pxs a t) by done.
    rewrite (IH _ (t + sum_list_with (λ px, red cs data px py) pxs));
      [|done..].
    cbn [count sum_list_with length]. f_equal; [|lia].
    do 3 f_equal. lia.
Qed.





(** What the loops leave in cell [(x, y)]. *)
Lemma cell_upd_mean gs cs data x y :
  0 < gs → gs ≤ cs → length data = 4 * cs * cs → x < gs → y < gs →
  cell_upd gs cs data y x = Some (Fin (cell_mean gs cs data x y)).
Proof.
  intros Hgs Hcs Hlen Hx Hy. unfold cell_upd, cell_acc.
  rewrite !cell_edge_floor by done.
  fold (span gs cs x) (span gs cs y).
  rewrite (pixel_rows cs data (span gs cs x) (span gs cs y) _ 0); try done.
  2: apply Forall_forall; intros p Hp; by apply (span_bounds gs cs x).
  2: apply Forall_forall; intros p Hp; by apply (span_bounds gs cs y).
  cbn [sum count Nat.add]. fold (cell_sum gs cs data x y).
  fold (cell_count gs cs x y).
  assert (Hct : 0 < cell_count gs cs x y).
  { unfold cell_count.
    pose proof (span_length gs cs x Hgs Hcs).
    pose proof (span_length gs cs y Hgs Hcs). nia. }
  unfold div, cell_mean.
  assert (Hz : Qeq_bool (inject_Z (Z.of_nat (cell_count gs cs x y))) 0
               = false).
  { apply not_true_iff_false. intros Heq%Qeq_bool_iff.
    unfold Qeq, inject_Z in Heq. simpl in Heq. lia. }
  by rewrite Hz.
Qed.

Lemma cell_step_spec gs cs data y r x :
  cell_step gs cs data
            (inject_Z (Z.of_nat cs) / inject_Z (Z.of_nat gs)) y r x =
    match cell_upd gs cs data y x with
    | Some v => <[ y * gs + x := v ]> r
    | None => r
    end.
Proof. done. Qed.

Lemma getImageData_fill gs cs data :
  getImageData_with gs cs data =
    fill_rows gs
      (cell_step gs cs data (inject_Z (Z.of_nat cs) / inject_Z (Z.of_nat gs)))
      (replicate (gs * gs) (Fin 0)) gs.
Proof. unfold getImageData_with, fill_rows, fill_row. done. Qed.




End normaliser.


(** * More on the model object *)
Section model_object.
Import NeuralNetwork.





(** X2.  A ready [predict] returns the maximum of the first ten entries
    of the classifier's answer: no number among them exceeds the
    confidence it returns, and when the confidence is positive, the answer
    holds exactly that number at the returned class, which is below 10,
    and only smaller numbers before it. *)
Theorem predict_maximum (s : State) (nn : Classifier)
    (inputData : list num) :
  isLoaded s = true →
  window_nn s = Some nn →
  let r := (predict inputData s).1 in
  let answer := nn (calls s) inputData in
  res_probabilities r = answer
  ∧ (∀ i q, i < 10 → answer !! i = Some (Fin q) →
       (q <= res_confidence r)%Q)
  ∧ ((0 < res_confidence r)%Q →
       res_prediction r < 10
       ∧ answer !! res_prediction r = Some (Fin (res_confidence r))
       ∧ ∀ i q, i < res_prediction r → answer !! i = Some (Fin q) →
           (q < res_confidence r)%Q).
Proof.
  intros Hl Hnn.
  destruct (predict_ready inputData s nn Hl Hnn) as (hid & ->).
  cbn [fst res_prediction res_confidence res_probabilities].
  destruct (argmax_inv (nn (calls s) inputData) 10)
    as (_ & Hmax & Hfirst & _).
  split; [done|]. split; [exact Hmax|exact Hfirst].
Qed.

Lemma predict_maximum_witness :
  let s := loaded_state (onehot 3) in
  let r := (predict blank s).1 in
  let answer := onehot 3 (calls s) blank in
  res_probabilities r = answer
  ∧ (∀ i q, i < 10 → answer !! i = Some (Fin q) →
       (q <= res_confidence r)%Q)
  ∧ ((0 < res_confidence r)%Q →
       res_prediction r < 10
       ∧ answer !! res_prediction r = Some (Fin (res_confidence r))
       ∧ ∀ i q, i < res_prediction r → answer !! i = Some (Fin q) →
           (q < res_confidence r)%Q).
Proof.
  apply (predict_maximum (loaded_state (onehot 3)) (onehot 3) blank);
    reflexivity.
Defined.

(** X3.  When none of the first ten entries of the answer is a positive
    number (an empty answer, zeros, negative numbers, [NaN]), a ready
    [predict] returns class 0 with confidence 0, whatever the entries. *)
Theorem predict_nothing_positive (s : State) (nn : Classifier)
    (inputData : list num) :
  isLoaded s = true →
  window_nn s = Some nn →
  (∀ i q, i < 10 → nn (calls s) inputData !! i = Some (Fin q) →
     (q <= 0)%Q) →
  res_prediction (predict inputData s).1 = 0
  ∧ (res_confidence (predict inputData s).1 == 0)%Q.
Proof.
  intros Hl Hnn Hnone.
  destruct (predict_ready inputData s nn Hl Hnn) as (hid & ->).
  cbn [fst res_prediction res_confidence].
  destruct (argmax_inv (nn (calls s) inputData) 10)
    as (Hpos & _ & Hfirst & Hzero & _).
  set (sc := argmax 10 (nn (calls s) inputData)) in *.
  assert (Hnot : ¬ (0 < maxProb sc)%Q).
  { intros Hp. destruct (Hfirst Hp) as (Hlt & Hat & _).
    pose proof (Hnone _ _ Hlt Hat). lra. }
  split; [by apply Hzero|]. lra.
Qed.

Lemma predict_nothing_positive_witness :
  res_prediction
    (predict blank (loaded_state (λ _ _, [Fin (-1); NaN; Fin 0]))).1 = 0
  ∧ (res_confidence
       (predict blank (loaded_state (λ _ _, [Fin (-1); NaN; Fin 0]))).1
     == 0)%Q.
Proof.
  apply (predict_nothing_positive
           (loaded_state (λ _ _, [Fin (-1); NaN; Fin 0]))
           (λ _ _, [Fin (-1); NaN; Fin 0]) blank);
    [reflexivity..|].
  intros i q Hi Hq.
  destruct i as [|[|[|i]]]; cbn in Hq; try discriminate;
    injection Hq as <-; lra.
Defined.

Lemma sum_list_alter_S_eq p (l : list nat) :
  p < length l → sum_list (alter S p l) = S (sum_list l).
Proof.
  revert p. induction l as [|a l IH]; intros [|p] Hp; simpl in *; try lia.
  specialize (IH p ltac:(lia)). unfold alter in IH. lia.
Qed.

(** The vote loop counts every variant once. *)
Lemma vote_loop_sum vs : ∀ votes s,
  length votes = 100 →
  sum_list (foldM vote_step votes vs s).1
  = sum_list votes
    + match window_nn s with Some _ => length vs | None => 0 end.
Proof.
  induction vs as [|d vs IH]; intros votes s Hlen.
  - cbn. destruct (window_nn s); lia.
  - cbn [foldM]. unfold mbind, M_bind. rewrite vote_step_run.
    destruct (window_nn s) as [nn|] eqn:Hnn.
    + rewrite IH by (by rewrite length_alter).
      cbn [log_calls window_nn]. rewrite Hnn.
      rewrite sum_list_alter_S_eq; [cbn [length]; lia|].
      rewrite Hlen. apply argmax_below_bound. lia.
    + rewrite IH by done. by rewrite Hnn.
Qed.

(** X4.  The tally of [verify] holds one vote per variant: its hundred
    slots add up to 10 when [window.nn] is there, and to 0 when it is
    missing. *)
Theorem votes_total (s : State) (inputData : list num) :
  length (votes_of inputData s) = 100
  ∧ sum_list (votes_of inputData s)
    = match window_nn s with Some _ => 10 | None => 0 end.
Proof.
  destruct (verify_run inputData s)
    as (vs & votes & fr & s3 & Haug & Hvs & Hcast & Hlen & _ & _ & _ & _
        & Hvotes & _).
  rewrite Hvotes. split; [done|].
  assert (Hsum := vote_loop_sum vs (replicate 100 0)
                    (advance (length inputData) s)
                    (length_replicate _ _)).
  unfold cast_votes in Hcast. rewrite Hcast in Hsum. cbn [fst] in Hsum.
  rewrite Hsum, sum_list_replicate, Hvs.
  change (window_nn (advance (length inputData) s)) with (window_nn s).
  by destruct (window_nn s).
Qed.

(** X5.  The class [verify] returns holds the highest tally, and is the
    first class to do so: no class has more votes, and every class before
    it has fewer. *)
Theorem verify_plurality (s : State) (inputData : list num) :
  let r := (verify inputData s).1 in
  let votes := votes_of inputData s in
  ∃ m, votes !! res_prediction r = Some m
     ∧ (∀ k n, votes !! k = Some n → n ≤ m)
     ∧ (∀ k n, k < res_prediction r → votes !! k = Some n → n < m).
Proof.
  destruct (verify_run inputData s)
    as (vs & votes & fr & s3 & _ & _ & _ & Hlen & _ & _ & _ & _
        & -> & ->).
  cbn [fst res_prediction].
  exists (maxVotes (find_winner votes)).
  assert (Hat := find_winner_at votes ltac:(lia)).
  destruct (find_winner_tally votes) as (Hmax & Hfirst & Hzero & _).
  split; [done|]. split.
  - intros k n Hk. apply (Hmax k); [|done].
    apply lookup_lt_Some in Hk. lia.
  - intros k n Hk Hn.
    destruct (decide (0 < maxVotes (find_winner votes))) as [Hp|Hz].
    + destruct (Hfirst Hp) as (_ & _ & Hbefore). by apply (Hbefore k).
    + rewrite Hzero in Hk by lia. lia.
Qed.

(** The vote loop when every answer has the same argmax. *)
Lemma vote_loop_unanimous nn c vs : ∀ votes s,
  window_nn s = Some nn →
  (∀ hist x, prediction (argmax 100 (nn hist x)) = c) →
  (foldM vote_step votes vs s).1 = alter (λ n, n + length vs) c votes.
Proof.
  induction vs as [|d vs IH]; intros votes s Hnn Hc.
  - cbn. symmetry. apply list_alter_id. intros n. lia.
  - cbn [foldM]. unfold mbind, M_bind. rewrite vote_step_run, Hnn, Hc.
    cbv beta iota zeta.
    rewrite (IH (alter S c votes) (log_calls [d] s) Hnn Hc).
    rewrite list_alter_alter_eq.
    apply list_alter_ext; [|done]. intros n _. cbn. lia.
Qed.

(** X6.  When [window.nn] is there and the argmax loop of [verify] reads
    the same class [c] off every answer, [verify] returns [c] with
    confidence 1, whether or not [isLoaded] is set. *)
Theorem verify_all_agree (s : State) (nn : Classifier)
    (inputData : list num) (c : nat) :
  window_nn s = Some nn →
  (∀ hist x, prediction (argmax 100 (nn hist x)) = c) →
  res_prediction (verify inputData s).1 = c
  ∧ (res_confidence (verify inputData s).1 == 1)%Q.
Proof.
  intros Hnn Hc.
  assert (Hc100 : c < 100).
  { rewrite <- (Hc [] []). apply argmax_below_bound. lia. }
  destruct (verify_run inputData s)
    as (vs & votes & fr & s3 & _ & Hvs & Hcast & Hlen & _ & _ & _ & _
        & _ & ->).
  cbn [fst res_prediction res_confidence].
  assert (Hvotes : votes = alter (λ n, n + 10) c (replicate 100 0)).
  { pose proof (vote_loop_unanimous nn c vs (replicate 100 0)
                  (advance (length inputData) s) Hnn Hc) as Hrun.
    unfold cast_votes in Hcast. rewrite Hcast, Hvs in Hrun.
    exact Hrun. }
  assert (Hat : votes !! c = Some 10).
  { rewrite Hvotes, list_lookup_alter_eq, lookup_replicate_2 by done.
    done. }
  assert (Hother : ∀ k v, votes !! k = Some v → k ≠ c → v = 0).
  { intros k v Hk Hne. rewrite Hvotes, list_lookup_alter_ne in Hk by done.
    by apply lookup_replicate_1 in Hk as [-> _]. }
  assert (Hwin : winner (find_winner votes) = c).
  { apply (find_winner_first votes c 10); [done..| |].
    - intros k v Hk. destruct (decide (k = c)) as [->|Hne].
      + rewrite Hat in Hk. injection Hk as <-. lia.
      + rewrite (Hother k v Hk Hne). lia.
    - intros k v Hlt Hk. rewrite (Hother k v Hk); lia. }
  split; [done|].
  pose proof (find_winner_at votes ltac:(lia)) as Hmv.
  rewrite Hwin, Hat in Hmv. injection Hmv as <-. reflexivity.
Qed.

Lemma verify_all_agree_witness :
  res_prediction (verify blank (loaded_state (onehot 3))).1 = 3
  ∧ (res_confidence (verify blank (loaded_state (onehot 3))).1 == 1)%Q.
Proof.
  apply (verify_all_agree (loaded_state (onehot 3)) (onehot 3) blank 3);
    reflexivity.
Defined.

(** X7.  With a classifier whose answers do not depend on earlier calls,
    the distribution [verify] returns on a ready model object is the one
    the single-shot [predict] returns for the same input: the answer to
    the input itself, not to a variant. *)
Theorem verify_raw_distribution (s : State) (nn : Classifier)
    (inputData : list num) :
  isLoaded s = true →
  window_nn s = Some nn →
  stateless nn →
  res_probabilities (verify inputData s).1
  = res_probabilities (predict inputData s).1
  ∧ res_probabilities (verify inputData s).1 = nn [] inputData.
Proof.
  intros Hl Hnn Hpure.
  destruct (verify_run inputData s)
    as (vs & votes & fr & s3 & _ & _ & _ & _ & _ & _ & _ & Hpred
        & _ & ->).
  rewrite Hnn in Hpred.
  set (s2 := log_calls vs (advance (length inputData) s)) in *.
  destruct (predict_ready inputData s2 nn) as (hid2 & Hrun2);
    [by subst s2; cbn; rewrite ?Hl, ?Hnn..|].
  rewrite Hrun2 in Hpred. injection Hpred as <- _.
  destruct (predict_ready inputData s nn Hl Hnn) as (hid & ->).
  cbn [fst res_probabilities].
  split; apply Hpure.
Qed.

Lemma verify_raw_distribution_witness :
  res_probabilities (verify blank (loaded_state (onehot 3))).1
  = res_probabilities (predict blank (loaded_state (onehot 3))).1
  ∧ res_probabilities (verify blank (loaded_state (onehot 3))).1
    = onehot 3 [] blank.
Proof.
  apply (verify_raw_distribution (loaded_state (onehot 3)) (onehot 3) blank);
    [reflexivity..|].
  intros hist hist' x. reflexivity.
Defined.

Lemma shift_cell_origin v dx dy j c :
  length v = 784 →
  shift v dx dy !! j = Some c → c = Fin 0 ∨ c ∈ v.
Proof.
  intros Hlen Hj.
  assert (Hlt : j < 784).
  { apply lookup_lt_Some in Hj. by rewrite shift_length, Hlen in Hj. }
  assert (Hx : j `mod` size < size)
    by (unfold size; apply Nat.mod_upper_bound; lia).
  assert (Hy : j / size < size)
    by (unfold size; apply Nat.Div0.div_lt_upper_bound; lia).
  assert (Hg : in_grid (Z.of_nat (j `mod` size)) (Z.of_nat (j / size))
               = true) by (apply in_grid_spec; lia).
  pose proof (shift_pixel v dx dy _ _ Hlen Hg) as Hpix.
  rewrite pixel_nat in Hpix by done.
  rewrite (Nat.mul_comm _ size), <- (Nat.div_mod_eq j size), Hj in Hpix.
  destruct (in_grid (Z.of_nat (j `mod` size) + dx)
                    (Z.of_nat (j / size) + dy)) eqn:Hs.
  - right. unfold pixel in Hpix. rewrite Hs in Hpix.
    symmetry in Hpix. by eapply list_elem_of_lookup_2.
  - left. by injection Hpix as ->.
Qed.

(** X8.  The ensemble of a feature vector consists of feature vectors:
    each of the ten variants that [augmentInput] returns for 784 numbers
    in [0, 1] has 784 cells, each a number in [0, 1]. *)
Theorem augmentInput_feature_vectors (s : State) (inputData : list num) :
  FeatureVector inputData →
  Forall FeatureVector (augmentInput inputData s).1.
Proof.
  intros [Hlen Hin].
  destruct (augmentInput_run inputData s) as (noisy & -> & Hnlen & Hcell).
  cbn [fst]. apply Forall_cons. split; [done|].
  apply Forall_app. split.
  - apply Forall_fmap, Forall_forall. intros [dx dy] _. cbn [fst snd].
    split; [by rewrite shift_length|].
    apply Forall_lookup. intros j c Hj.
    destruct (shift_cell_origin _ _ _ _ _ Hlen Hj) as [->|Hc].
    + cbn. lra.
    + by eapply (proj1 (Forall_forall _ _) Hin).
  - apply Forall_singleton. split; [by rewrite Hnlen|].
    apply Forall_lookup. intros i c Hi.
    assert (Hlt : i < length inputData)
      by (apply lookup_lt_Some in Hi; lia).
    rewrite (Hcell i Hlt) in Hi. injection Hi as <-.
    destruct (lookup_lt_is_Some_2 inputData i Hlt) as [x Hx].
    pose proof (Forall_lookup_1 _ _ _ _ Hin Hx) as Hwx.
    unfold noisy_cell. rewrite Hx. cbn [to_cell].
    destruct x as [x|]; [|done].
    destruct (clamp_within (x + (random s (drawn s + i) * (2 # 10)
                                 - (1 # 10)))) as (c & Hc & Hrange).
    unfold noise_val. cbn [add]. rewrite Hc. exact Hrange.
Qed.

Lemma augmentInput_feature_vectors_witness :
  Forall FeatureVector (augmentInput white (loaded_state (onehot 0))).1.
Proof.
  apply (augmentInput_feature_vectors (loaded_state (onehot 0)) white).
  split; [reflexivity|].
  apply Forall_replicate. cbn. lra.
Defined.

Lemma init_wait_spec page : ∀ budget attempts,
  let k := init_wait page attempts budget in
  attempts ≤ k ≤ attempts + budget
  ∧ (∀ j, attempts ≤ j → j < k → page j = None)
  ∧ (k < attempts + budget → is_Some (page k)).
Proof.
  induction budget as [|budget IH]; intros attempts; cbn [init_wait].
  - split; [lia|]. split; [intros; lia|lia].
  - destruct (page attempts) as [nn|] eqn:Hp.
    + split; [lia|]. split; [intros; lia|]. intros _. by rewrite Hp.
    + destruct (IH (S attempts)) as (Hk & Hnone & Hsome).
      split; [lia|]. split; [|intros; apply Hsome; lia].
      intros j Hlo Hhi. destruct (decide (j = attempts)) as [->|];
        [done|apply Hnone; lia].
Qed.

(** X9.  [init] checks [window.nn] at most 21 times, 100 ms apart, and
    stops at the first check that finds it.  It sets [isLoaded] exactly
    when one of these checks finds it; when none does, the model object
    stays unready. *)
Theorem init_polls (page : nat → option Classifier) (s : State) :
  isLoaded s = false →
  let waits := init_wait page 0 20 in
  let s' := init page s in
  waits ≤ 20
  ∧ (∀ j, j < waits → page j = None)
  ∧ window_nn s' = page waits
  ∧ (isLoaded s' = true ↔ ∃ j, j ≤ 20 ∧ is_Some (page j))
  ∧ ready s' = isLoaded s'.
Proof.
  intros Hl waits s'.
  destruct (init_wait_spec page 20 0) as (Hk & Hnone & Hsome).
  fold waits in Hk, Hnone, Hsome.
  split; [lia|]. split; [intros; apply Hnone; lia|]. split; [done|].
  subst s'. unfold init, ready. fold waits.
  cbn [isLoaded window_nn]. rewrite Hl.
  split.
  - split.
    + intros Hload. exists waits. split; [lia|].
      by destruct (page waits).
    + intros (j & Hj & Hpj).
      assert (Hsw : is_Some (page waits)).
      { destruct (decide (waits < 20)) as [Hlt|Hge]; [apply Hsome; lia|].
        destruct (decide (j < waits)) as [Hjw|Hjw].
        - rewrite Hnone in Hpj by lia. by destruct Hpj.
        - by replace waits with j by lia. }
      by destruct Hsw as [nn ->].
  - by destruct (page waits).
Qed.

Lemma init_polls_witness :
  let page := appears_after 3 (onehot 0) in
  let waits := init_wait page 0 20 in
  let s' := init page unloaded_state in
  waits ≤ 20
  ∧ (∀ j, j < waits → page j = None)
  ∧ window_nn s' = page waits
  ∧ (isLoaded s' = true ↔ ∃ j, j ≤ 20 ∧ is_Some (page j))
  ∧ ready s' = isLoaded s'.
Proof.
  apply (init_polls (appears_after 3 (onehot 0)) unloaded_state).
  reflexivity.
Defined.






End model_object.

(** * More on the normaliser *)
Section normaliser_more.
Import App.

(** The downsampled image, cell by cell. *)
Lemma getImageData_cells gs cs data :
  0 < gs → gs ≤ cs → length data = 4 * cs * cs →
  length (getImageData_with gs cs data) = gs * gs
  ∧ ∀ j, j < gs * gs →
      getImageData_with gs cs data !! j
      = Some (Fin (cell_mean gs cs data (j `mod` gs) (j / gs))).
Proof.
  intros Hgs Hcs Hlen. rewrite getImageData_fill.
  pose proof (cell_step_spec gs cs data) as Hspec.
  split.
  - rewrite (fill_rows_length gs (cell_upd gs cs data) _ Hspec).
    apply length_replicate.
  - intros j Hj.
    assert (Hx : j `mod` gs < gs) by (apply Nat.mod_upper_bound; lia).
    assert (Hy : j / gs < gs) by (apply Nat.Div0.div_lt_upper_bound; lia).
    rewrite (Nat.div_mod_eq j gs) at 1. rewrite (Nat.mul_comm gs).
    rewrite (fill_rows_cell gs (cell_upd gs cs data) _ Hspec) by done.
    rewrite cell_upd_mean by done.
    rewrite lookup_replicate_2; [done|].
    rewrite (Nat.mul_comm _ gs), <- Nat.div_mod_eq. done.
Qed.

Lemma red_at cs (data : list Byte.byte) px py b :
  (0 ≤ px < Z.of_nat cs)%Z → (0 ≤ py < Z.of_nat cs)%Z →
  data !! (4 * Z.to_nat (py * Z.of_nat cs + px)) = Some b →
  red cs data px py = N.to_nat (Byte.to_N b).
Proof.
  intros Hpx Hpy Hb. unfold red.
  replace (Z.to_nat ((py * Z.of_nat cs + px) * 4))
    with (4 * Z.to_nat (py * Z.of_nat cs + px)) by nia.
  by rewrite Hb.
Qed.

Lemma pixel_number cs px py :
  (0 ≤ px < Z.of_nat cs)%Z → (0 ≤ py < Z.of_nat cs)%Z →
  Z.to_nat (py * Z.of_nat cs + px) < cs * cs.
Proof. intros Hpx Hpy. nia. Qed.

Lemma sum_list_with_agree {A} (f g : A → nat) (l : list A) :
  (∀ a, a ∈ l → f a = g a) → sum_list_with f l = sum_list_with g l.
Proof.
  induction l as [|a l IH]; intros Hfg; [done|].
  cbn [sum_list_with]. rewrite (Hfg a) by apply list_elem_of_here.
  rewrite IH; [done|]. intros a' Ha'. apply Hfg.
  by apply list_elem_of_further.
Qed.

(** The sum over a cell depends on the red bytes only. *)
Lemma cell_sum_ext gs cs data data' x y :
  0 < gs → x < gs → y < gs →
  (∀ i, i < cs * cs → data !! (4 * i) = data' !! (4 * i)) →
  cell_sum gs cs data x y = cell_sum gs cs data' x y.
Proof.
  intros Hgs Hx Hy Hred. unfold cell_sum.
  apply sum_list_with_agree. intros py Hpy.
  apply sum_list_with_agree. intros px Hpx.
  apply (span_bounds gs cs x) in Hpx; [|done..].
  apply (span_bounds gs cs y) in Hpy; [|done..].
  unfold red.
  replace (Z.to_nat ((py * Z.of_nat cs + px) * 4))
    with (4 * Z.to_nat (py * Z.of_nat cs + px)) by nia.
  by rewrite Hred by (by apply pixel_number).
Qed.


Lemma cell_count_pos gs cs x y :
  0 < gs → gs ≤ cs → 0 < cell_count gs cs x y.
Proof.
  intros Hgs Hcs. unfold cell_count.
  pose proof (span_length gs cs x Hgs Hcs).
  pose proof (span_length gs cs y Hgs Hcs). nia.
Qed.



(** A canvas painted in one colour, pixel by pixel. *)
Lemma pixels_length (r g b a : Byte.byte) n :
  length (mjoin (replicate n [r; g; b; a])) = 4 * n.
Proof.
  induction n as [|n IH]; [done|].
  change (length ([r; g; b; a] ++ mjoin (replicate n [r; g; b; a])) = 4 * S n).
  rewrite length_app, IH. cbn [length]. lia.
Qed.

Lemma pixels_red (r g b a : Byte.byte) n i :
  i < n → mjoin (replicate n [r; g; b; a]) !! (4 * i) = Some r.
Proof.
  revert i. induction n as [|n IH]; intros i Hi; [lia|].
  destruct i as [|i]; [done|].
  replace (4 * S i) with (4 + 4 * i) by lia.
  cbn [replicate mjoin list_join]. apply IH. lia.
Qed.

Lemma painted_length (r g b a : Byte.byte) :
  length (painted [r; g; b; a]) = 4 * App.canvasSize * App.canvasSize.
Proof. unfold painted. rewrite pixels_length. apply Nat.mul_assoc. Qed.

Lemma painted_red (r g b a : Byte.byte) i :
  i < App.canvasSize * App.canvasSize →
  painted [r; g; b; a] !! (4 * i) = Some r.
Proof. unfold painted. apply pixels_red. Qed.

(** X12.  The downsampled image depends on the red channel only: two
    canvas buffers of the same side, at least 28, that agree on the red
    byte of every pixel give the same image, whatever their green, blue
    and alpha bytes are. *)
Theorem getImageData_red_only (cs : nat) (data data' : list Byte.byte) :
  gridSize ≤ cs →
  length data = 4 * cs * cs →
  length data' = 4 * cs * cs →
  (∀ i, i < cs * cs → data !! (4 * i) = data' !! (4 * i)) →
  getImageData_with gridSize cs data = getImageData_with gridSize cs data'.
Proof.
  intros Hcs Hlen Hlen' Hred.
  assert (Hgs : 0 < gridSize) by (unfold gridSize; lia).
  destruct (getImageData_cells gridSize cs data Hgs Hcs Hlen)
    as (Hlength & Hcell).
  destruct (getImageData_cells gridSize cs data' Hgs Hcs Hlen')
    as (Hlength' & Hcell').
  apply list_eq. intros j.
  destruct (decide (j < gridSize * gridSize)) as [Hj|Hj].
  - rewrite Hcell, Hcell' by done. unfold cell_mean.
    rewrite (cell_sum_ext gridSize cs data data'); [done|done|..|done].
    + apply Nat.mod_upper_bound; lia.
    + apply Nat.Div0.div_lt_upper_bound; lia.
  - rewrite !lookup_ge_None_2; [done|lia..].
Qed.

Lemma getImageData_red_only_witness :
  getImageData_with gridSize canvasSize white_canvas
  = getImageData_with gridSize canvasSize tinted_canvas.
Proof.
  apply (getImageData_red_only canvasSize white_canvas tinted_canvas).
  - unfold gridSize, canvasSize. lia.
  - apply length_replicate.
  - exact (painted_length Byte.xff Byte.x00 Byte.x80 Byte.xff).
  - intros i Hi.
    unfold tinted_canvas.
    rewrite (painted_red Byte.xff Byte.x00 Byte.x80 Byte.xff i Hi).
    apply lookup_replicate_2. lia.
Defined.

End normaliser_more.

(** * The game *)
Section game.
Import Game.

(** Running a method of the application object on a world. *)
Ltac run_world :=
  repeat (progress
    (unfold mbind, W_bind, mret, W_ret, get_app, put_app, get_page,
       put_page, liftN, showMessage, setTimeout, setInterval;
     cbn -[Qfloor Qmult NeuralNetwork.predict App.getImageData Z.sub
           Z.leb Z.eqb String.eqb filter mjoin replicate
           App.canvasSize])).

Lemma floor_digit (r : Q) :
  (0 <= r < 1)%Q → (0 ≤ Qfloor (r * 10) ≤ 9)%Z.
Proof.
  intros [Hr0 Hr1].
  pose proof (Qfloor_le (r * 10)) as Hle.
  pose proof (Qlt_floor (r * 10)) as Hlt.
  set (f := Qfloor (r * 10)) in *.
  split.
  - assert (0 < inject_Z (f + 1))%Q as H by lra.
    unfold Qlt, inject_Z in H. simpl in H. lia.
  - assert (inject_Z f < inject_Z 10)%Q as H
      by (change (inject_Z 10) with 10%Q; lra).
    unfold Qlt, inject_Z in H. simpl in H. lia.
Qed.

Lemma nextChallenge_run w :
  nextChallenge w =
    (tt, mkWorld
           (mkApp (gameMode (app w)) (score (app w)) (streak (app w))
                  (Some (Qfloor (NeuralNetwork.random (net w)
                                   (NeuralNetwork.drawn (net w)) * 10)))
                  (timer (app w)) (timerInterval (app w))
                  (isGameActive (app w)) (lastImageData (app w))
                  (lastPrediction (app w)))
           (page w) (advance 1 (net w))).
Proof.
  destruct w as [a p n]. unfold nextChallenge. run_world.
  unfold advance. repeat f_equal. lia.
Qed.

(** X13.  [nextChallenge] always sets a digit as the target: with
    [Math.random] in [0, 1), the target is an integer from 0 to 9.  It
    changes nothing else of the application object or of the page. *)
Theorem nextChallenge_digit (w : World) :
  random_in_range (net w) →
  let w' := (nextChallenge w).2 in
  (∃ t, targetDigit (app w') = Some t ∧ (0 ≤ t ≤ 9)%Z)
  ∧ score (app w') = score (app w)
  ∧ streak (app w') = streak (app w)
  ∧ gameMode (app w') = gameMode (app w)
  ∧ page w' = page w.
Proof.
  intros Hrand. rewrite nextChallenge_run. cbn -[Qfloor Qmult].
  split; [|done]. eexists. split; [reflexivity|].
  apply floor_digit, Hrand.
Qed.

Lemma nextChallenge_digit_witness :
  let w := initial_world (loaded_state (onehot 0)) in
  let w' := (nextChallenge w).2 in
  (∃ t, targetDigit (app w') = Some t ∧ (0 ≤ t ≤ 9)%Z)
  ∧ score (app w') = score (app w)
  ∧ streak (app w') = streak (app w)
  ∧ gameMode (app w') = gameMode (app w)
  ∧ page w' = page w.
Proof.
  apply (nextChallenge_digit (initial_world (loaded_state (onehot 0)))).
  intros n. split; vm_compute; [discriminate|reflexivity].
Defined.

Lemma handleGameLogic_run prediction w :
  (handleGameLogic prediction w).2 =
    let a := app w in
    let p := page w in
    if String.eqb (gameMode a) "free" then w
    else match targetDigit a with
         | Some target =>
             if (Z.of_nat prediction =? target)%Z
             then mkWorld
                    (mkApp (gameMode a) (score a + (10 + streak a * 2))
                           (streak a + 1) (targetDigit a) (timer a)
                           (timerInterval a) (isGameActive a)
                           (lastImageData a) (lastPrediction a))
                    (mkPage (canvas p) (intervals p) (next_handle p)
                            (timeouts p ++ [AutoNext])
                            (messages p ++ [CorrectPoints]))
                    (net w)
             else mkWorld
                    (mkApp (gameMode a) (score a) 0 (targetDigit a)
                           (timer a) (timerInterval a) (isGameActive a)
                           (lastImageData a) (lastPrediction a))
                    (mkPage (canvas p) (intervals p) (next_handle p)
                            (timeouts p) (messages p ++ [TryAgain]))
                    (net w)
         | None => w
         end.
Proof.
  destruct w as [a p n]. unfold handleGameLogic. run_world.
  destruct (String.eqb (gameMode a) "free"); [done|].
  destruct (targetDigit a) as [t|]; [|done].
  by destruct (Z.of_nat prediction =? t)%Z.
Qed.

Lemma round_won_run w :
  gameMode (app w) ≠ "free" →
  random_in_range (net w) →
  let w' := round_won w in
  score (app w') = score (app w) + (10 + streak (app w) * 2)
  ∧ streak (app w') = streak (app w) + 1
  ∧ gameMode (app w') = gameMode (app w)
  ∧ random_in_range (net w').
Proof.
  intros Hmode Hrand. unfold round_won, right_answer.
  rewrite nextChallenge_run. cbn [snd app targetDigit].
  rewrite handleGameLogic_run. cbn [app gameMode targetDigit page net].
  apply String.eqb_neq in Hmode. rewrite Hmode.
  pose proof (floor_digit _ (Hrand (NeuralNetwork.drawn (net w)))) as Ht.
  rewrite Z2Nat.id, Z.eqb_refl by lia.
  cbn [app score streak gameMode net]. done.
Qed.

(** X14.  A winning streak: [k] rounds won in a row (a new challenge,
    then the right answer) outside free mode raise the streak by [k] and
    the score by 10 k + 2 k s + k (k - 1), where [s] is the streak before;
    from a fresh game that is a score of k (k + 9). *)
Theorem winning_streak (k : nat) (w : World) :
  gameMode (app w) ≠ "free" →
  random_in_range (net w) →
  let w' := Nat.iter k round_won w in
  streak (app w') = streak (app w) + k
  ∧ score (app w')
    = score (app w) + k * (10 + 2 * streak (app w)) + k * (k - 1).
Proof.
  intros Hmode Hrand.
  assert (H : let w' := Nat.iter k round_won w in
              gameMode (app w') = gameMode (app w)
              ∧ random_in_range (net w')
              ∧ streak (app w') = streak (app w) + k
              ∧ score (app w')
                = score (app w) + k * (10 + 2 * streak (app w))
                  + k * (k - 1)).
  { induction k as [|k (Hm & Hr & Hst & Hsc)].
    - simpl. split; [done|split; [done|split; lia]].
    - rewrite Nat.iter_succ.
      destruct (round_won_run (Nat.iter k round_won w))
        as (Hsc' & Hst' & Hm' & Hr'); [congruence|done|].
      split; [congruence|]. split; [done|]. split; [lia|].
      rewrite Hsc', Hsc, Hst. destruct k; nia. }
  destruct H as (_ & _ & Hst & Hsc). by split.
Qed.

Lemma winning_streak_witness :
  let w := (setGameMode "challenge"
              (initial_world (loaded_state (onehot 0)))).2 in
  let w' := Nat.iter 3 round_won w in
  streak (app w') = streak (app w) + 3
  ∧ score (app w')
    = score (app w) + 3 * (10 + 2 * streak (app w)) + 3 * (3 - 1).
Proof.
  apply (winning_streak 3).
  - vm_compute. discriminate.
  - intros n. split; vm_compute; [discriminate|reflexivity].
Defined.

Lemma setGameMode_inv mode w : game_inv w → game_inv (setGameMode mode w).2.
Proof.
  destruct w as [[gm sc st td tm ti ga li lp] [cv iv nh to ms] n].
  intros (Htm & Hiv & Htd & Hst & Hrand). cbn in Htm, Hiv, Htd, Hst, Hrand.
  assert (Hclear : match ti with
                   | Some id => filter (λ i, i ≠ id) iv = []
                   | None => iv = []
                   end).
  { destruct Hiv as [->|(id & -> & -> & _)]; [by destruct ti|].
    rewrite filter_cons, decide_False by (intros H; by apply H). done. }
  pose proof (floor_digit _ (Hrand (NeuralNetwork.drawn n))) as Hdigit.
  unfold setGameMode, resetGame, startTimer, nextChallenge, clearInterval.
  run_world.
  destruct ti as [id|]; run_world; rewrite Hclear;
    (destruct (mode =? "time")%string eqn:Hm;
     [apply String.eqb_eq in Hm|
      destruct (mode =? "challenge")%string eqn:Hc]);
    run_world; unfold game_inv; cbn -[Qfloor Qmult];
    (split; [lia|]); (split; [first [by left | right; by eexists]|]);
    (split; [intros t [= <-] || intros t [=]; done|]); (split; [lia|done]).
Qed.

Lemma nextChallenge_inv w : game_inv w → game_inv (nextChallenge w).2.
Proof.
  intros (Htm & Hiv & Htd & Hst & Hrand). rewrite nextChallenge_run.
  unfold game_inv. cbn -[Qfloor Qmult].
  split; [done|]. split; [done|].
  split; [|by split].
  intros t [= <-]. apply floor_digit, Hrand.
Qed.

Lemma handleGameLogic_inv prediction w :
  game_inv w → game_inv (handleGameLogic prediction w).2.
Proof.
  intros Hinv. pose proof Hinv as (Htm & Hiv & Htd & Hst & Hrand).
  rewrite handleGameLogic_run. cbv zeta.
  destruct (String.eqb (gameMode (app w)) "free"); [exact Hinv|].
  destruct (targetDigit (app w)) as [t|] eqn:Ht; [|exact Hinv].
  destruct (Z.of_nat prediction =? t)%Z;
    unfold game_inv; cbn; rewrite ?Ht;
    (split; [done|]); (split; [done|]); (split; [done|]);
    (split; [nia|done]).
Qed.

Lemma predict_run w :
  (predict w).2 =
    let imageData := App.getImageData (canvas (page w)) in
    let a := app w in
    let p := page w in
    let a1 := mkApp (gameMode a) (score a) (streak a) (targetDigit a)
                    (timer a) (timerInterval a) (isGameActive a)
                    (Some imageData) (lastPrediction a) in
    if hasContent imageData
    then
      let result := NeuralNetwork.predict imageData (net w) in
      (handleGameLogic (NeuralNetwork.res_prediction result.1)
         (mkWorld
            (mkApp (gameMode a) (score a) (streak a) (targetDigit a)
                   (timer a) (timerInterval a) (isGameActive a)
                   (Some imageData)
                   (Some (NeuralNetwork.res_prediction result.1)))
            p result.2)).2
    else
      mkWorld a1
              (mkPage (canvas p) (intervals p) (next_handle p) (timeouts p)
                      (messages p ++ [DrawSomethingFirst]))
              (net w).
Proof.
  destruct w as [a p n]. unfold predict, updatePrediction. run_world.
  destruct (hasContent (App.getImageData (canvas p))); [|done].
  run_world.
  destruct (NeuralNetwork.predict (App.getImageData (canvas p)) n)
    as [r n'].
  run_world. by destruct (handleGameLogic (NeuralNetwork.res_prediction r) _).
Qed.

Lemma predict_inv w : game_inv w → game_inv (predict w).2.
Proof.
  intros Hinv. rewrite predict_run. cbv zeta.
  destruct (hasContent _).
  - apply handleGameLogic_inv.
    destruct Hinv as (Htm & Hiv & Htd & Hst & Hrand).
    unfold game_inv. cbn [app page net timer intervals timerInterval
      gameMode isGameActive targetDigit streak score].
    split; [done|]. split; [done|]. split; [done|]. split; [done|].
    destruct (predict_effects (App.getImageData (canvas (page w))) (net w))
      as (_ & _ & _ & Hr & _).
    unfold random_in_range. by rewrite Hr.
  - exact Hinv.
Qed.

Lemma tick_inv id w :
  game_inv w → id ∈ intervals (page w) → game_inv (tick w).2.
Proof.
  destruct w as [[gm sc st td tm ti ga li lp] [cv iv nh to ms] n].
  intros (Htm & Hiv & Htd & Hst & Hrand) Hid.
  cbn in Htm, Hiv, Htd, Hst, Hrand, Hid.
  destruct Hiv as [->|(id' & -> & -> & -> & -> & Hpos)];
    [by apply elem_of_nil in Hid|].
  unfold tick, endGame, clearInterval. run_world.
  destruct (tm - 1 <=? 0)%Z eqn:Hz; run_world.
  - rewrite filter_cons, decide_False by (intros H; by apply H).
    unfold game_inv. cbn.
    split; [lia|]. split; [by left|]. by split.
  - unfold game_inv. cbn.
    split; [lia|]. split; [|by split].
    right. exists id'. repeat split; try done. lia.
Qed.

Lemma on_event_inv e w : game_inv w → game_inv (on_event e w).2.
Proof.
  intros Hinv. destruct e as [mode| | |d|px|id|k]; cbn [on_event].
  - by apply setGameMode_inv.
  - by apply predict_inv.
  - destruct w as [a p n]. unfold clearCanvas. run_world. exact Hinv.
  - destruct w as [a p n]. unfold handleCorrection. run_world.
    destruct (lastImageData a); run_world; exact Hinv.
  - destruct w as [a p n]. run_world. exact Hinv.
  - run_world. destruct (bool_decide _) eqn:Hd; [|done].
    apply bool_decide_eq_true in Hd. by eapply tick_inv.
  - run_world. destruct (timeouts (page w) !! k) as [t|]; [|done].
    run_world. destruct t; cbn [run_timeout].
    + unfold clearCanvas. run_world. apply nextChallenge_inv.
      destruct w as [a p n]. exact Hinv.
    + apply setGameMode_inv. destruct w as [a p n]. exact Hinv.
Qed.

Lemma run_snoc events e w : run (events ++ [e]) w = (on_event e (run events w)).2.
Proof. unfold run. by rewrite foldl_snoc. Qed.

(** X15.  Whatever happens on the page (mode buttons, predict and clear,
    corrections, drawing, intervals and timeouts run by the browser, in
    any order), the game keeps [game_inv]: the countdown stays within
    0..60; at most one interval runs, under the handle the application
    holds, and only in time mode with the game active and the countdown
    above 0; the target is a digit; and the score is at least
    streak * (streak + 9). *)
Theorem game_invariant (n : NeuralNetwork.State) (events : list Event) :
  random_in_range n →
  game_inv (run events (initial_world n)).
Proof.
  intros Hrand.
  induction events as [|e events IH] using rev_ind.
  - unfold game_inv, run, initial_world.
    cbn [foldl app page net initial_app initial_page timer intervals
         timerInterval targetDigit streak score].
    split; [lia|]. split; [by left|]. split; [done|]. split; [lia|done].
  - rewrite run_snoc. by apply on_event_inv.
Qed.

Lemma game_invariant_witness :
  game_inv
    (run [ModeClick "time"; IntervalFires 1; PredictClick; TimeoutFires 0]
         (initial_world (loaded_state (onehot 0)))).
Proof.
  apply (game_invariant (loaded_state (onehot 0))).
  intros n. split; vm_compute; [discriminate|reflexivity].
Defined.

Lemma setGameMode_time w :
  let w0 := (setGameMode "time" w).2 in
  let id := next_handle (page w) in
  timer (app w0) = 60%Z
  ∧ isGameActive (app w0) = true
  ∧ timerInterval (app w0) = Some id
  ∧ score (app w0) = 0
  ∧ id ∈ intervals (page w0).
Proof.
  destruct w as [[gm sc st td tm ti ga li lp] [cv iv nh to ms] n].
  unfold setGameMode, resetGame, startTimer, nextChallenge, clearInterval.
  run_world. destruct ti as [id|]; run_world;
    (split; [done|]); (split; [done|]); (split; [done|]); (split; [done|]);
    apply elem_of_app; right; apply list_elem_of_here.
Qed.

(** X16.  The time attack lasts sixty ticks: after [setGameMode('time')]
    the countdown shows 60 - k after the interval has run k < 60 times,
    the game being active; the sixtieth run ends the game: the countdown
    is at 0, the game is not active, the interval is cleared (so that
    later runs change nothing), `Game Over! Score: 0` is the message shown
    and the return to free mode is scheduled. *)
Theorem countdown (w : World) (k : nat) :
  let w0 := (setGameMode "time" w).2 in
  let id := next_handle (page w) in
  let wk := run (replicate k (IntervalFires id)) w0 in
  (k < 60 →
     timer (app wk) = (60 - Z.of_nat k)%Z
     ∧ isGameActive (app wk) = true
     ∧ id ∈ intervals (page wk))
  ∧ (60 ≤ k →
       timer (app wk) = 0%Z
       ∧ isGameActive (app wk) = false
       ∧ (id ∉ intervals (page wk))
       ∧ last (messages (page wk)) = Some (GameOver 0)
       ∧ BackToFree ∈ timeouts (page wk)).
Proof.
  intros w0 id.
  destruct (setGameMode_time w) as (Htm0 & Hga0 & Hti0 & Hsc0 & Hid0).
  fold w0 id in Htm0, Hga0, Hti0, Hsc0, Hid0.
  assert (H : let wk := run (replicate k (IntervalFires id)) w0 in
    (k < 60 →
       timer (app wk) = (60 - Z.of_nat k)%Z
       ∧ isGameActive (app wk) = true
       ∧ id ∈ intervals (page wk)
       ∧ timerInterval (app wk) = Some id
       ∧ score (app wk) = 0)
    ∧ (60 ≤ k →
         timer (app wk) = 0%Z
         ∧ isGameActive (app wk) = false
         ∧ (id ∉ intervals (page wk))
         ∧ last (messages (page wk)) = Some (GameOver 0)
         ∧ BackToFree ∈ timeouts (page wk))).
  { induction k as [|k [IHlt IHge]].
    - split; [|lia]. intros _. cbn [replicate run foldl].
      rewrite Htm0. repeat split; done || lia.
    - rewrite replicate_S_end, run_snoc.
      set (wk := run (replicate k (IntervalFires id)) w0) in *.
      destruct (decide (k < 60)) as [Hk|Hk].
      + destruct (IHlt Hk) as (Htm & Hga & Hid & Hti & Hsc).
        destruct wk as [[gm sc st td tm ti ga li lp] [cv iv nh to ms] n].
        cbn in Htm, Hga, Hid, Hti, Hsc. subst tm ga ti sc.
        cbn [on_event]. run_world.
        rewrite bool_decide_eq_true_2 by done.
        unfold tick, endGame, clearInterval. run_world.
        destruct (60 - Z.of_nat k - 1 <=? 0)%Z eqn:Hz; run_world.
        * apply Z.leb_le in Hz. split; [lia|]. intros _.
          split; [lia|]. split; [done|]. split.
          { rewrite list_elem_of_filter. intros [Hne _]. by apply Hne. }
          split; [apply last_snoc|].
          apply elem_of_app; right; apply list_elem_of_here.
        * apply Z.leb_gt in Hz. split; [|lia]. intros _.
          repeat split; try done. lia.
      + split; [lia|]. intros _.
        destruct (IHge ltac:(lia)) as (Htm & Hga & Hid & Hms & Hto).
        cbn [on_event]. run_world.
        by rewrite bool_decide_eq_false_2 by done. }
  destruct H as [Hlt Hge]. split; [|exact Hge].
  intros Hk. destruct (Hlt Hk) as (? & ? & ? & _). by repeat split.
Qed.

Lemma countdown_witness :
  let w := initial_world (loaded_state (onehot 0)) in
  let w0 := (setGameMode "time" w).2 in
  let id := next_handle (page w) in
  let wk := run (replicate 60 (IntervalFires id)) w0 in
  timer (app wk) = 0%Z
  ∧ isGameActive (app wk) = false
  ∧ (id ∉ intervals (page wk))
  ∧ last (messages (page wk)) = Some (GameOver 0)
  ∧ BackToFree ∈ timeouts (page wk).
Proof.
  exact (proj2 (countdown (initial_world (loaded_state (onehot 0))) 60)
               ltac:(lia)).
Defined.

Lemma hasContent_false (imageData : list num) :
  Forall (λ v, ∀ q, v = Fin q → (q <= 1 # 10)%Q) imageData →
  hasContent imageData = false.
Proof.
  unfold hasContent.
  induction 1 as [|v l Hv _ IH]; [done|]. cbn [existsb]. rewrite IH.
  destruct v as [q|]; [|done].
  specialize (Hv q eq_refl). apply Qle_alt in Hv.
  destruct (q ?= 1 # 10)%Q eqn:Hcmp; done || congruence.
Qed.

Lemma cell_sum_le gs cs data x y bound :
  0 < gs → x < gs → y < gs →
  (∀ i, i < cs * cs →
     ∃ b, data !! (4 * i) = Some b ∧ N.to_nat (Byte.to_N b) ≤ bound) →
  cell_sum gs cs data x y ≤ bound * cell_count gs cs x y.
Proof.
  intros Hgs Hx Hy Hred. unfold cell_sum, cell_count.
  assert (Hrow : ∀ py (pxs : list Z),
            (0 ≤ py < Z.of_nat cs)%Z →
            Forall (λ px, (0 ≤ px < Z.of_nat cs)%Z) pxs →
            sum_list_with (λ px, red cs data px py) pxs
            ≤ bound * length pxs).
  { intros py pxs Hpy. induction 1 as [|px pxs Hpx _ IH]; [cbn; lia|].
    cbn [sum_list_with length].
    destruct (Hred _ (pixel_number cs px py Hpx Hpy)) as (b & Hb & Hle).
    rewrite (red_at cs data px py b Hpx Hpy Hb). lia. }
  assert (Hxs : Forall (λ px, (0 ≤ px < Z.of_nat cs)%Z) (span gs cs x)).
  { apply Forall_forall. intros px Hpx. by apply (span_bounds gs cs x). }
  assert (Hys : Forall (λ py, (0 ≤ py < Z.of_nat cs)%Z) (span gs cs y)).
  { apply Forall_forall. intros py Hpy. by apply (span_bounds gs cs y). }
  induction Hys as [|py pys Hpy _ IH]; [cbn; lia|].
  cbn [sum_list_with length].
  pose proof (Hrow py _ Hpy Hxs). lia.
Qed.

Lemma dim_mean (sm ct : nat) :
  0 < ct → sm ≤ 25 * ct →
  (inject_Z (Z.of_nat sm) / inject_Z (Z.of_nat ct) / 255 <= 1 # 10)%Q.
Proof.
  intros Hct Hsm.
  assert (Hc : (0 < inject_Z (Z.of_nat ct))%Q).
  { unfold Qlt, inject_Z. simpl. lia. }
  assert (Hb : (inject_Z (Z.of_nat sm) <= 25 * inject_Z (Z.of_nat ct))%Q).
  { unfold Qle, Qmult, inject_Z. simpl. lia. }
  apply Qle_shift_div_r; [lra|]. apply Qle_shift_div_r; [done|]. lra.
Qed.

(** The predict button on a canvas without a bright pixel. *)
Lemma predict_dim (w : World) :
  length (canvas (page w)) = 4 * App.canvasSize * App.canvasSize →
  (∀ i, i < App.canvasSize * App.canvasSize →
     ∃ b, canvas (page w) !! (4 * i) = Some b
          ∧ N.to_nat (Byte.to_N b) ≤ 25) →
  let w' := (predict w).2 in
  net w' = net w
  ∧ lastImageData (app w') = Some (App.getImageData (canvas (page w)))
  ∧ lastPrediction (app w') = lastPrediction (app w)
  ∧ score (app w') = score (app w)
  ∧ streak (app w') = streak (app w)
  ∧ messages (page w') = messages (page w) ++ [DrawSomethingFirst]
  ∧ timeouts (page w') = timeouts (page w).
Proof.
  intros Hlen Hdim.
  assert (Hgs : 0 < App.gridSize) by (unfold App.gridSize; lia).
  assert (Hcs : App.gridSize ≤ App.canvasSize)
    by (unfold App.gridSize, App.canvasSize; lia).
  destruct (getImageData_cells App.gridSize App.canvasSize _ Hgs Hcs Hlen)
    as (Hlength & Hcell).
  assert (Hempty : hasContent (App.getImageData (canvas (page w))) = false).
  { apply hasContent_false, Forall_lookup. intros j v Hj q ->.
    unfold App.getImageData in Hj.
    assert (Hlt : j < App.gridSize * App.gridSize).
    { apply lookup_lt_Some in Hj. by rewrite Hlength in Hj. }
    assert (Hx : j `mod` App.gridSize < App.gridSize)
      by (apply Nat.mod_upper_bound; lia).
    assert (Hy : j / App.gridSize < App.gridSize)
      by (apply Nat.Div0.div_lt_upper_bound; lia).
    rewrite (Hcell j Hlt) in Hj.
    set (x := j `mod` App.gridSize) in *.
    set (y := j / App.gridSize) in *. clearbody x y.
    assert (q = cell_mean App.gridSize App.canvasSize (canvas (page w)) x y)
      as -> by congruence.
    apply dim_mean.
    - by apply cell_count_pos.
    - by apply cell_sum_le. }
  rewrite predict_run. cbv zeta. rewrite Hempty.
  cbn [app page net lastImageData lastPrediction score streak messages
       timeouts].
  clear. repeat split.
Qed.

(** X17.  A dim canvas counts as empty: when no pixel of the canvas has a
    red byte above 25 (a canvas just cleared, for one), the predict button
    does not call the classifier and leaves the model object and the game
    alone; it stores the downsampled image and shows
    `Draw something first!`. *)
Theorem predict_dim_canvas (w : World) :
  length (canvas (page w)) = 4 * App.canvasSize * App.canvasSize →
  (∀ i, i < App.canvasSize * App.canvasSize →
     ∃ b, canvas (page w) !! (4 * i) = Some b
          ∧ N.to_nat (Byte.to_N b) ≤ 25) →
  let w' := (predict w).2 in
  net w' = net w
  ∧ lastImageData (app w') = Some (App.getImageData (canvas (page w)))
  ∧ lastPrediction (app w') = lastPrediction (app w)
  ∧ score (app w') = score (app w)
  ∧ streak (app w') = streak (app w)
  ∧ messages (page w') = messages (page w) ++ [DrawSomethingFirst]
  ∧ timeouts (page w') = timeouts (page w).
Proof. exact (predict_dim w). Qed.

Lemma predict_dim_canvas_witness :
  let w := initial_world (loaded_state (onehot 0)) in
  let w' := (predict w).2 in
  net w' = net w
  ∧ lastImageData (app w') = Some (App.getImageData (canvas (page w)))
  ∧ lastPrediction (app w') = lastPrediction (app w)
  ∧ score (app w') = score (app w)
  ∧ streak (app w') = streak (app w)
  ∧ messages (page w') = messages (page w) ++ [DrawSomethingFirst]
  ∧ timeouts (page w') = timeouts (page w).
Proof.
  apply (predict_dim_canvas (initial_world (loaded_state (onehot 0)))).
  - exact (painted_length Byte.x00 Byte.x00 Byte.x00 Byte.xff).
  - intros i Hi. exists Byte.x00.
    split; [exact (painted_red Byte.x00 Byte.x00 Byte.x00 Byte.xff i Hi)|].
    vm_compute. lia.
Defined.

(** X24.  Clear, then predict: whatever the page showed, after the clear
    button the predict button finds nothing drawn: it shows
    `Draw something first!`, does not call the classifier, and leaves the
    score, the streak and the last prediction as they were. *)
Theorem clear_then_predict (w : World) :
  let w' := run [ClearClick; PredictClick] w in
  net w' = net w
  ∧ last (messages (page w')) = Some DrawSomethingFirst
  ∧ score (app w') = score (app w)
  ∧ streak (app w') = streak (app w)
  ∧ lastPrediction (app w') = lastPrediction (app w)
  ∧ timeouts (page w') = timeouts (page w).
Proof.
  destruct w as [a p n].
  set (w1 := mkWorld a (mkPage black_canvas (intervals p) (next_handle p)
                               (timeouts p) (messages p)) n).
  assert (Hrun : run [ClearClick; PredictClick] (mkWorld a p n)
                 = (predict w1).2).
  { unfold run. cbn [foldl on_event]. unfold clearCanvas. run_world. done. }
  cbv zeta. rewrite Hrun.
  destruct (predict_dim w1) as (Hn & _ & Hlp & Hsc & Hst & Hms & Hto).
  - exact (painted_length Byte.x00 Byte.x00 Byte.x00 Byte.xff).
  - intros i Hi. exists Byte.x00.
    split; [exact (painted_red Byte.x00 Byte.x00 Byte.x00 Byte.xff i Hi)|].
    vm_compute. lia.
  - rewrite Hn, Hlp, Hsc, Hst, Hms, Hto, last_snoc. by repeat split.
Qed.


End game.

(** * The network visualisation *)
Section visualisation.
Import NeuralNetwork NetworkViz.

(** ** The layout *)

Lemma push_row {A} (g : nat → A) xs acc :
  foldl (λ nodes x, nodes ++ [g x]) acc xs = acc ++ (g <$> xs).
Proof.
  revert acc. induction xs as [|x xs IH]; intros acc; cbn.
  - by rewrite app_nil_r.
  - rewrite IH. by rewrite <- app_assoc.
Qed.

Lemma push_grid_rows {A} n (node : nat → nat → A) :
  push_grid n node
  = mjoin ((λ y, (λ x, node x y) <$> seq 0 n) <$> seq 0 n).
Proof.
  unfold push_grid.
  assert (H : ∀ ys acc,
            foldl (λ nodes y,
                     foldl (λ nodes x, nodes ++ [node x y]) nodes (seq 0 n))
                  acc ys
            = acc ++ mjoin ((λ y, (λ x, node x y) <$> seq 0 n) <$> ys)).
  { induction ys as [|y ys IH]; intros acc; cbn.
    - by rewrite app_nil_r.
    - rewrite IH, push_row. by rewrite <- app_assoc. }
  apply (H _ []).
Qed.

Lemma join_length_same {A} n (ls : list (list A)) :
  Forall (λ l, length l = n) ls → length (mjoin ls) = length ls * n.
Proof.
  induction 1 as [|l ls Hl _ IH]; [done|].
  change (mjoin (l :: ls)) with (l ++ mjoin ls).
  rewrite length_app, IH, Hl. cbn [length]. lia.
Qed.

Lemma push_grid_same_length {A} n (node : nat → nat → A) :
  Forall (λ l, length l = n)
         ((λ y, (λ x, node x y) <$> seq 0 n) <$> seq 0 n).
Proof.
  apply Forall_fmap, Forall_forall. intros y _. cbn.
  by rewrite length_fmap, length_seq.
Qed.

Lemma push_grid_length {A} n (node : nat → nat → A) :
  length (push_grid n node) = n * n.
Proof.
  rewrite push_grid_rows, (join_length_same n).
  - by rewrite length_fmap, length_seq.
  - apply push_grid_same_length.
Qed.

Lemma push_grid_lookup {A} n (node : nat → nat → A) x y :
  x < n → y < n → push_grid n node !! (y * n + x) = Some (node x y).
Proof.
  intros Hx Hy. rewrite push_grid_rows.
  apply (join_lookup_Some_same_length' n); [|done|].
  - apply push_grid_same_length.
  - exists ((λ x, node x y) <$> seq 0 n). split.
    + by rewrite list_lookup_fmap, lookup_seq_lt.
    + by rewrite list_lookup_fmap, lookup_seq_lt.
Qed.

(** X19.  The input layer of the visualisation shows every other pixel
    of every other row of the 28 by 28 image: whatever the size of its
    canvas, the layout has 196 input nodes, and the node at column [x] and
    row [y] of the 14 by 14 grid reads the image at pixel [(2 x, 2 y)],
    an index inside the image. *)
Theorem layout_input_nodes (w h : Q) (x y : nat) :
  x < 14 → y < 14 →
  length (input (calculateLayout w h)) = 196
  ∧ ∃ node, input (calculateLayout w h) !! (y * 14 + x) = Some node
            ∧ originalIndex node = (2 * y) * 28 + 2 * x
            ∧ originalIndex node < 784.
Proof.
  intros Hx Hy. unfold calculateLayout. cbv zeta. cbn [input].
  split; [apply (push_grid_length 14)|].
  eexists. split; [by apply (push_grid_lookup 14)|].
  cbn [originalIndex]. lia.
Qed.

Lemma layout_input_nodes_witness :
  length (input (calculateLayout 400 300)) = 196
  ∧ ∃ node, input (calculateLayout 400 300) !! (13 * 14 + 13) = Some node
            ∧ originalIndex node = (2 * 13) * 28 + 2 * 13
            ∧ originalIndex node < 784.
Proof. apply (layout_input_nodes 400 300 13 13); lia. Defined.

(** X20.  Whatever the size of the canvas, the layout has 64 hidden nodes
    and 10 output nodes, the hidden node at position [j] carries index
    [j], and the output node at position [i] carries digit [i]. *)
Theorem layout_labels (w h : Q) :
  index <$> hidden (calculateLayout w h) = seq 0 64
  ∧ digit <$> output (calculateLayout w h) = seq 0 10.
Proof.
  unfold calculateLayout. cbv zeta. cbn [hidden output]. split.
  - rewrite push_grid_rows. reflexivity.
  - reflexivity.
Qed.

(** ** The animation *)

Lemma cube_mono (a b : Q) :
  (0 <= a)%Q → (a <= b)%Q → (a * a * a <= b * b * b)%Q.
Proof.
  intros Ha Hab.
  assert (H2 : (a * a <= b * b)%Q) by nra.
  assert (H0 : (0 <= a * a)%Q) by nra.
  nra.
Qed.

Lemma ease_low (t : Q) :
  (t < 1 # 2)%Q → (ease t == 4 * (t * t * t))%Q.
Proof.
  intros Ht. unfold ease.
  destruct (Qcompare_spec t (1 # 2)) as [H|H|H]; [lra|ring|lra].
Qed.

Lemma ease_high (t : Q) :
  (1 # 2 <= t)%Q →
  (ease t == 1 - ((2 - 2 * t) * (2 - 2 * t) * (2 - 2 * t)) * (1 # 2))%Q.
Proof.
  intros Ht. unfold ease.
  destruct (Qcompare_spec t (1 # 2)) as [H|H|H]; [|lra|];
    cbn [Qpower Qpower_positive pow_pos]; field.
Qed.

Lemma ease_monotone (t t' : Q) :
  (0 <= t)%Q → (t <= t')%Q → (t' <= 1)%Q →
  (0 <= ease t)%Q ∧ (ease t <= ease t')%Q ∧ (ease t' <= 1)%Q.
Proof.
  intros H0 Htt H1.
  destruct (Qlt_le_dec t (1 # 2)) as [Ht|Ht];
    destruct (Qlt_le_dec t' (1 # 2)) as [Ht'|Ht'].
  - rewrite (ease_low t Ht), (ease_low t' Ht').
    pose proof (cube_mono t t' H0 Htt).
    pose proof (cube_mono 0 t ltac:(lra) H0).
    pose proof (cube_mono t' (1 # 2) ltac:(lra) ltac:(lra)).
    repeat split; lra.
  - rewrite (ease_low t Ht), (ease_high t' Ht').
    pose proof (cube_mono 0 t ltac:(lra) H0).
    pose proof (cube_mono t (1 # 2) H0 ltac:(lra)).
    pose proof (cube_mono 0 (2 - 2 * t') ltac:(lra) ltac:(lra)).
    pose proof (cube_mono (2 - 2 * t') 1 ltac:(lra) ltac:(lra)).
    repeat split; lra.
  - lra.
  - rewrite (ease_high t Ht), (ease_high t' Ht').
    pose proof (cube_mono (2 - 2 * t') (2 - 2 * t) ltac:(lra) ltac:(lra)).
    pose proof (cube_mono 0 (2 - 2 * t') ltac:(lra) ltac:(lra)).
    pose proof (cube_mono (2 - 2 * t) 1 ltac:(lra) ltac:(lra)).
    repeat split; lra.
Qed.

Lemma progress_range (duration elapsed : Q) :
  (0 < duration)%Q → (0 <= elapsed)%Q →
  (0 <= progress duration elapsed <= 1)%Q
  ∧ (progress duration elapsed <= elapsed / duration)%Q
  ∧ (duration <= elapsed → progress duration elapsed == 1)%Q.
Proof.
  intros Hd He. unfold progress, min.
  assert (Hq : (0 <= elapsed / duration)%Q).
  { apply Qle_shift_div_l; [done|lra]. }
  destruct (Qle_bool (elapsed / duration) 1) eqn:Hle.
  - apply Qle_bool_iff in Hle. repeat split; try lra.
    intros Hde.
    assert ((1 <= elapsed / duration)%Q)
      by (apply Qle_shift_div_l; [done|lra]).
    lra.
  - assert (Hgt : ¬ (elapsed / duration <= 1)%Q).
    { intros H. apply Qle_bool_iff in H. congruence. }
    apply Qnot_le_lt in Hgt. repeat split; lra.
Qed.

Lemma progress_monotone (duration elapsed elapsed' : Q) :
  (0 < duration)%Q → (elapsed <= elapsed')%Q →
  (progress duration elapsed <= progress duration elapsed')%Q.
Proof.
  intros Hd He. unfold progress, min.
  assert (Hq : (elapsed / duration <= elapsed' / duration)%Q).
  { apply Qle_shift_div_l; [done|].
    unfold Qdiv. rewrite <- Qmult_assoc, (Qmult_comm (/ duration)),
      Qmult_inv_r by lra. lra. }
  destruct (Qle_bool (elapsed / duration) 1) eqn:Hle;
    destruct (Qle_bool (elapsed' / duration) 1) eqn:Hle'.
  - done.
  - by apply Qle_bool_iff in Hle.
  - assert (Hgt : ¬ (elapsed / duration <= 1)%Q).
    { intros H. apply Qle_bool_iff in H. congruence. }
    apply Qle_bool_iff in Hle'. lra.
  - lra.
Qed.

(** X21.  The animation grows in: with a positive duration and a frame
    time not before the start, the factor [easedProgress] that a frame
    multiplies every activation by lies between 0 and 1, a later frame
    never has a smaller factor, and from [duration] on the factor is 1,
    so the last animated frame shows the activations themselves. *)
Theorem animate_progress (duration elapsed elapsed' : Q) :
  (0 < duration)%Q → (0 <= elapsed)%Q → (elapsed <= elapsed')%Q →
  let e := ease (progress duration elapsed) in
  let e' := ease (progress duration elapsed') in
  (0 <= e)%Q ∧ (e <= e')%Q ∧ (e' <= 1)%Q
  ∧ ((duration <= elapsed)%Q → (e == 1)%Q).
Proof.
  intros Hd He Hee e e'. subst e e'.
  destruct (progress_range duration elapsed Hd He) as ([Hp0 Hp1] & _ & Hend).
  destruct (progress_range duration elapsed' Hd ltac:(lra))
    as ([Hp0' Hp1'] & _ & _).
  pose proof (progress_monotone duration elapsed elapsed' Hd Hee) as Hmono.
  destruct (ease_monotone _ _ Hp0 Hmono Hp1') as (H0 & Hle & H1).
  repeat split; try done.
  intros Hde. specialize (Hend Hde).
  rewrite ease_high by lra.
  assert (Hz : (2 - 2 * progress duration elapsed == 0)%Q) by lra.
  rewrite Hz. ring.
Qed.

Lemma animate_progress_witness :
  let e := ease (progress 800 200) in
  let e' := ease (progress 800 900) in
  (0 <= e)%Q ∧ (e <= e')%Q ∧ (e' <= 1)%Q
  ∧ ((800 <= 200)%Q → (e == 1)%Q).
Proof. apply (animate_progress 800 200 900); vm_compute; congruence. Defined.

(** ** The highlighted output node *)










(** ** Radii and opacities *)

Lemma or_default_within (lo hi dflt : Q) (l : list num) (i : nat) :
  (lo <= dflt <= hi)%Q → Forall (within lo hi) l →
  (lo <= or_default (l !! i) dflt <= hi)%Q.
Proof.
  intros Hd Hl. unfold or_default.
  destruct (l !! i) as [[q|]|] eqn:Hi; try done.
  destruct (Qeq_bool q 0); [done|].
  by apply (Forall_lookup_1 _ _ _ _ Hl Hi).
Qed.

(** X25.  The nodes are drawn with valid sizes and opacities: when the
    activations to draw, if any, have their input and output cells in
    [0, 1], every input node gets a radius between 2 and 4 and an opacity
    between 0.3 and 1, and every output node a background opacity between
    0.3 and 0.9; a missing, zero or [NaN] cell counts as 0 for an input
    node and as 0.1 for an output node. *)
Theorem node_opacity (a : option Activations) (node : InputNode)
    (idx : nat) :
  (∀ acts, a = Some acts →
     Forall (within 0 1) (act_input acts)
     ∧ Forall (within 0 1) (act_output acts)) →
  (2 <= input_radius a node <= 4)%Q
  ∧ (3 # 10 <= input_alpha a node <= 1)%Q
  ∧ (3 # 10 <= bgAlpha a idx <= 9 # 10)%Q.
Proof.
  intros Hrange.
  assert (Hin : (0 <= or_default
                        (a ≫= λ a, act_input a !! originalIndex node) 0
                 <= 1)%Q).
  { destruct a as [acts|]; [|cbn; lra].
    destruct (Hrange acts eq_refl) as [Hi _].
    apply or_default_within; [lra|done]. }
  assert (Hout : (0 <= or_default (a ≫= λ a, act_output a !! idx) (1 # 10)
                  <= 1)%Q).
  { destruct a as [acts|]; [|cbn; lra].
    destruct (Hrange acts eq_refl) as [_ Ho].
    apply or_default_within; [lra|done]. }
  unfold input_radius, input_alpha, bgAlpha. cbv zeta.
  destruct (isMax a idx); repeat split; lra.
Qed.

Lemma node_opacity_witness :
  (2 <= input_radius (Some fresh_activations) (mkInputNode 0 0 58) <= 4)%Q
  ∧ (3 # 10 <= input_alpha (Some fresh_activations) (mkInputNode 0 0 58)
     <= 1)%Q
  ∧ (3 # 10 <= bgAlpha (Some fresh_activations) 3 <= 9 # 10)%Q.
Proof.
  apply (node_opacity (Some fresh_activations) (mkInputNode 0 0 58) 3).
  intros acts [= <-].
  split; apply Forall_replicate; vm_compute; split; discriminate.
Defined.

(** ** Connections *)




End visualisation.
